(** * Masking engine and secure monitoring callback

    A shallow embedding of [scripts/masking_service.py] and
    [scripts/monitoring.py].

    Python [str] values are modelled as lists of characters ([list ascii]):
    the alphabet is the code points 0 to 255 (Latin-1), on which [str.lower]
    maps each character to one character of the alphabet.  A [dict] is an
    association list in insertion order, assignment [d[k] = v] is
    [dict_set]; a [set] is a [gset].  Recursion is unbounded: the
    interpreter's recursion limit, which deeply nested structures can
    exceed, is not part of the model. *)

From Stdlib Require Import Ascii String ZArith DecimalString.
From stdpp Require Import base option list strings gmap sorting.

Open Scope list_scope.
Set Warnings "-register-all".

(** ** Strings *)

Abbreviation pystr := (list ascii).

(** A string literal of the source, as a list of characters. *)
Definition lit (s : string) : pystr := list_ascii_of_string s.

(** [c.lower()] for one character: the capitals [A]-[Z] (65-90) and the
    Latin-1 capitals (192-214 and 216-222; 215 is the multiplication sign) go
    to the letter 32 places up, every other character stays.  Under
    [re.IGNORECASE] a pattern character and a text character of this
    alphabet match exactly when their [lower_char] are equal. *)
Definition lower_char (c : ascii) : ascii :=
  let n := nat_of_ascii c in
  if ((65 <=? n)%nat && (n <=? 90)%nat) ||
     ((192 <=? n)%nat && (n <=? 214)%nat) ||
     ((216 <=? n)%nat && (n <=? 222)%nat)
  then ascii_of_nat (n + 32) else c.

(** [s.lower()]. *)
Definition lower (s : pystr) : pystr := lower_char <$> s.

(** [x.startswith(p)], as a test. *)
Fixpoint starts_with (p x : pystr) : bool :=
  match p, x with
  | [], _ => true
  | a :: p', b :: x' => if decide (a = b) then starts_with p' x' else false
  | _ :: _, [] => false
  end.

(** [p in x] on strings: [p] occurs in [x] as a contiguous substring. *)
Fixpoint str_contains (p x : pystr) : bool :=
  starts_with p x ||
  match x with
  | [] => false
  | _ :: x' => str_contains p x'
  end.

(** ** The compiled pattern

    [re.compile('|'.join(re.escape(t) for t in sorted_terms), re.IGNORECASE)]
    is an ordered alternation of literals: the regular expression is
    represented by the list of its alternatives, in order. *)

Definition regex := list pystr.

(** [sorted(terms, key=len, reverse=True)]: Python's sort is stable, also with
    [reverse=True], so terms of equal length keep their relative order. *)
Fixpoint insert_by_len (t : pystr) (l : list pystr) : list pystr :=
  match l with
  | [] => [t]
  | u :: l' => if (length u <=? length t)%nat then t :: u :: l'
               else u :: insert_by_len t l'
  end.

Definition sorted_by_len_desc (terms : list pystr) : list pystr :=
  foldr insert_by_len [] terms.

(** One literal alternative tried at the current position under IGNORECASE;
    the result is the matched slice of the text ([match.group(0)]). *)
Fixpoint match_literal (term text : pystr) : option pystr :=
  match term, text with
  | [], _ => Some []
  | p :: term', c :: text' =>
      if decide (lower_char p = lower_char c)
      then (c ::.) <$> match_literal term' text'
      else None
  | _ :: _, [] => None
  end.

(** The alternation at the current position: alternatives are tried in order
    and the first that matches wins.  With [must_advance] an empty match is
    rejected and the next alternative is tried (the engine sets this flag
    right after an empty match, so that the scan makes progress). *)
Fixpoint match_here (alts : regex) (text : pystr) (must_advance : bool)
  : option pystr :=
  match alts with
  | [] => None
  | t :: alts' =>
      match match_literal t text with
      | Some m =>
          if must_advance && bool_decide (m = [])
          then match_here alts' text must_advance
          else Some m
      | None => match_here alts' text must_advance
      end
  end.

(** What [pattern.sub] sees of the text, left to right: characters copied
    verbatim and matched spans. *)
Inductive piece :=
  | Verbatim (c : ascii)
  | Matched (m : pystr).

(** The scan of [pattern.sub(repl, text)].  [skip] counts the characters of
    the current match still to be consumed.  After a non-empty match the scan
    resumes right behind it; after an empty match the engine must advance:
    it retries the same position for a non-empty match and otherwise copies
    one character. *)
Fixpoint scan (alts : regex) (text : pystr) (skip : nat) : list piece :=
  match text with
  | [] =>
      match skip with
      | 0 => match match_here alts [] false with
             | Some m => [Matched m]
             | None => []
             end
      | S _ => []
      end
  | c :: text' =>
      match skip with
      | S k => scan alts text' k
      | 0 =>
          match match_here alts text false with
          | None => Verbatim c :: scan alts text' 0
          | Some [] =>
              Matched [] ::
              match match_here alts text true with
              | Some m => Matched m :: scan alts text' (length m - 1)
              | None => Verbatim c :: scan alts text' 0
              end
          | Some m => Matched m :: scan alts text' (length m - 1)
          end
      end
  end.

Definition render (repl : pystr → pystr) (p : piece) : pystr :=
  match p with
  | Verbatim c => [c]
  | Matched m => repl m
  end.

(** [pattern.sub(repl, text)] with a function [repl]. *)
Definition re_sub (alts : regex) (repl : pystr → pystr) (text : pystr) : pystr :=
  concat (render repl <$> scan alts text 0).

(** ** MaskingService *)

Record MaskingService := {
  sensitive_keys : gset pystr;
  sensitive_terms : list pystr;
  token_map : list (pystr * pystr);
  pattern : option regex
}.

(** The part of [__init__] after the configuration has been read. *)
Definition compile_pattern (terms : list pystr) : option regex :=
  match sorted_by_len_desc terms with
  | [] => None
  | sorted_terms => Some sorted_terms
  end.

Definition make_service (keys : list pystr) (terms : list pystr)
    (tokens : list (pystr * pystr)) : MaskingService :=
  {| sensitive_keys := list_to_set keys;
     sensitive_terms := terms;
     token_map := tokens;
     pattern := compile_pattern terms |}.

(** [replace_match]: the loop over [token_map.items()], then the fallback. *)
Fixpoint find_token (tokens : list (pystr * pystr)) (original : pystr) : pystr :=
  match tokens with
  | [] => lit "[MASKED_TERM]"
  | (term, token) :: tokens' =>
      if str_contains (lower term) (lower original)
      then lit "[" ++ token ++ lit "]"
      else find_token tokens' original
  end.

Definition replace_match (self : MaskingService) (original : pystr) : pystr :=
  find_token (token_map self) original.

Definition mask_text (self : MaskingService) (text : pystr) : pystr :=
  match pattern self, text with
  | None, _ => text
  | _, [] => text
  | Some alts, _ => re_sub alts (replace_match self) text
  end.

Definition acid_service : MaskingService :=
  make_service [] [lit "acid"; lit "hydrochloric acid"]
               [(lit "hydrochloric acid", lit "HAZ1")].

(** ** Structured data

    The values [mask_structure] and [json.dumps] dispatch on.  [PyObject]
    stands for any other Python object (a set, an instance of a class, ...):
    [mask_structure] returns it unchanged and [json.dumps] cannot serialise
    it. *)

Inductive scalar :=
  | PyNone
  | PyBool (b : bool)
  | PyInt (n : Z)
  | PyObject (id : nat).

Inductive value :=
  | VDict (items : list (pystr * value))
  | VList (elems : list value)
  | VStr (s : pystr)
  | VScalar (x : scalar).

(** [d[k] = v]: an existing key keeps its position, a new key goes last. *)
Fixpoint dict_set {V : Type} (k : pystr) (v : V) (d : list (pystr * V))
  : list (pystr * V) :=
  match d with
  | [] => [(k, v)]
  | (k', v') :: d' =>
      if decide (k' = k) then (k', v) :: d' else (k', v') :: dict_set k v d'
  end.

Definition MASKED_VALUE : value := VStr (lit "[MASKED_VALUE]").

Fixpoint mask_structure (self : MaskingService) (data : value) : value :=
  match data with
  | VDict items =>
      VDict
        ((fix loop (items : list (pystr * value))
              (new_dict : list (pystr * value)) {struct items} :=
            match items with
            | [] => new_dict
            | (k, v) :: items' =>
                loop items'
                  (dict_set k
                     (if decide (k ∈ sensitive_keys self) then MASKED_VALUE
                      else mask_structure self v)
                     new_dict)
            end) items [])
  | VList elems => VList (mask_structure self <$> elems)
  | VStr s => VStr (mask_text self s)
  | VScalar x => VScalar x
  end.

(** A Python [dict] has no two equal keys; [wf_value] says so for every
    mapping inside a value. *)
Fixpoint wf_value (v : value) : bool :=
  match v with
  | VDict items =>
      bool_decide (NoDup items.*1) &&
      (fix all (items : list (pystr * value)) : bool :=
         match items with
         | [] => true
         | (_, v) :: items' => wf_value v && all items'
         end) items
  | VList elems =>
      (fix all (elems : list value) : bool :=
         match elems with
         | [] => true
         | v :: elems' => wf_value v && all elems'
         end) elems
  | VStr _ => true
  | VScalar _ => true
  end.

(** ** Exceptions and the log sink

    A computation either returns or raises; handlers also append lines to
    the log ([logger.info]), which is threaded through as state. *)

Inductive exn :=
  | FileNotFoundError
  | YAMLError
  | AttributeError
  | IndexError
  | TypeError.

Inductive result (A : Type) :=
  | Ok (a : A)
  | Raise (e : exn).
Arguments Ok {A} a.
Arguments Raise {A} e.

Definition log := list pystr.

Definition Handler (A : Type) : Type := log → result A * log.

#[global] Instance handler_ret : MRet Handler := λ A a l, (Ok a, l).

#[global] Instance handler_bind : MBind Handler := λ A B f m l,
  match m l with
  | (Ok a, l') => f a l'
  | (Raise e, l') => (Raise e, l')
  end.

Definition lift {A} (r : result A) : Handler A := λ l, (r, l).

(** [try: body except: handler] with a bare [except], which catches
    everything; lines logged before the error stay logged. *)
Definition try_except {A} (body handler : Handler A) : Handler A :=
  λ l, match body l with
       | (Ok a, l') => (Ok a, l')
       | (Raise _, l') => handler l'
       end.

Definition logger_info (line : pystr) : Handler unit :=
  λ l, (Ok tt, l ++ [line]).

(** ** json.dumps

    With the default arguments: [ensure_ascii=True] and the separators
    [", "] and [": "]. *)

Definition hex_digit (n : nat) : ascii :=
  nth n (lit "0123456789abcdef") "0"%char.

Definition dquote : ascii := ascii_of_nat 34.
Definition bslash : ascii := ascii_of_nat 92.

(** One character inside a JSON string. *)
Definition json_char (c : ascii) : pystr :=
  let n := nat_of_ascii c in
  if decide (n = 34) then [bslash; dquote]
  else if decide (n = 92) then [bslash; bslash]
  else if decide (n = 10) then bslash :: lit "n"
  else if decide (n = 13) then bslash :: lit "r"
  else if decide (n = 9) then bslash :: lit "t"
  else if decide (n = 8) then bslash :: lit "b"
  else if decide (n = 12) then bslash :: lit "f"
  else if (32 <=? n)%nat && (n <=? 126)%nat then [c]
  else bslash :: lit "u00" ++ [hex_digit (n / 16); hex_digit (n mod 16)].

Definition json_string (s : pystr) : pystr :=
  [dquote] ++ concat (json_char <$> s) ++ [dquote].

Fixpoint join (sep : pystr) (parts : list pystr) : pystr :=
  match parts with
  | [] => []
  | [p] => p
  | p :: parts' => p ++ sep ++ join sep parts'
  end.

Fixpoint json_dumps (v : value) : result pystr :=
  match v with
  | VScalar PyNone => Ok (lit "null")
  | VScalar (PyBool true) => Ok (lit "true")
  | VScalar (PyBool false) => Ok (lit "false")
  | VScalar (PyInt n) => Ok (lit (NilZero.string_of_int (Z.to_int n)))
  | VScalar (PyObject _) => Raise TypeError
  | VStr s => Ok (json_string s)
  | VList elems =>
      match
        (fix each (elems : list value) : result (list pystr) :=
           match elems with
           | [] => Ok []
           | v :: elems' =>
               match json_dumps v with
               | Ok p => match each elems' with
                         | Ok ps => Ok (p :: ps)
                         | Raise e => Raise e
                         end
               | Raise e => Raise e
               end
           end) elems
      with
      | Ok parts => Ok (lit "[" ++ join (lit ", ") parts ++ lit "]")
      | Raise e => Raise e
      end
  | VDict items =>
      match
        (fix each (items : list (pystr * value)) : result (list pystr) :=
           match items with
           | [] => Ok []
           | (k, v) :: items' =>
               match json_dumps v with
               | Ok p => match each items' with
                         | Ok ps => Ok ((json_string k ++ lit ": " ++ p) :: ps)
                         | Raise e => Raise e
                         end
               | Raise e => Raise e
               end
           end) items
      with
      | Ok parts => Ok (lit "{" ++ join (lit ", ") parts ++ lit "}")
      | Raise e => Raise e
      end
  end.

(** ** SecureMonitoringCallback *)

(** [on_llm_start]: the prompts are masked, serialised, cut to 2000
    characters and logged. *)
Definition on_llm_start (masker : MaskingService) (prompts : list pystr)
  : Handler unit :=
  let masked_prompts := mask_text masker <$> prompts in
  dumped ← lift (json_dumps (VList (VStr <$> masked_prompts)));
  logger_info (lit "LLM START - Prompts: " ++ take 2000 dumped ++ lit "...").

(** The response object as [on_llm_end] reads it: [response.generations] may
    be absent, the nested lists may be empty, and a generation may have no
    [text] attribute. *)
Record generation := { text : option pystr }.
Record response := { generations : option (list (list generation)) }.

(** [response.generations[0][0].text] *)
Definition response_text (r : response) : result pystr :=
  match generations r with
  | None => Raise AttributeError
  | Some [] => Raise IndexError
  | Some ([] :: _) => Raise IndexError
  | Some ((g :: _) :: _) =>
      match text g with
      | None => Raise AttributeError
      | Some t => Ok t
      end
  end.

Definition LLM_END_FALLBACK : pystr :=
  lit "LLM END - (Could not parse response text)".

Definition on_llm_end (masker : MaskingService) (r : response) : Handler unit :=
  try_except
    (t ← lift (response_text r);
     let masked_text := mask_text masker t in
     logger_info (lit "LLM END - Response: " ++ take 2000 masked_text ++ lit "..."))
    (logger_info LLM_END_FALLBACK).

(** [on_chain_start]: [inputs] is a [dict]; its copy is masked, serialised,
    cut to 2000 characters and logged. *)
Definition on_chain_start (masker : MaskingService)
    (inputs : list (pystr * value)) : Handler unit :=
  let safe_inputs := inputs in
  let masked_inputs := mask_structure masker (VDict safe_inputs) in
  dumped ← lift (json_dumps masked_inputs);
  logger_info (lit "CHAIN START - Inputs: " ++ take 2000 dumped ++ lit "...").

(** ** Reading the configuration

    What [open] and [yaml.safe_load] give [__init__]: the file may be
    missing, its content may not be YAML, and a YAML document is either empty
    ([safe_load] returns [None]) or a mapping in which each of the three
    entries is present or not. *)

Record document := {
  doc_sensitive_keys : option (list pystr);
  doc_sensitive_terms : option (list pystr);
  doc_token_map : option (list (pystr * pystr))
}.

Inductive yaml :=
  | YamlNone
  | YamlMapping (d : document).

Inductive source :=
  | NoSuchFile
  | NotYaml
  | Yaml (y : yaml).

(** [config.get(key, default)] *)
Definition get {A} (entry : option A) (default : A) : A :=
  match entry with
  | Some a => a
  | None => default
  end.

Definition __init__ (config_path : source) : result MaskingService :=
  match config_path with
  | NoSuchFile => Raise FileNotFoundError
  | NotYaml => Raise YAMLError
  | Yaml YamlNone => Raise AttributeError
  | Yaml (YamlMapping config) =>
      Ok (make_service (get (doc_sensitive_keys config) [])
                       (get (doc_sensitive_terms config) [])
                       (get (doc_token_map config) []))
  end.

(** ** Notions used in the statements *)

(** The term [t] matches the text [x] at its start, ignoring case. *)
Definition ci_prefix (t x : pystr) : Prop := lower t `prefix_of` lower x.

(** [k] is a substring of [m], ignoring case. *)
Definition ci_substring (k m : pystr) : Prop :=
  ∃ pre post, lower m = pre ++ lower k ++ post.

(** The order [sorted(..., key=len, reverse=True)] establishes. *)
Definition longer_first (a b : pystr) : Prop := length b ≤ length a.

Definition lbracket : ascii := "["%char.
Definition rbracket : ascii := "]"%char.

Definition bracket_free (t : pystr) : Prop :=
  (lbracket ∉ t) ∧ (rbracket ∉ t).

(** The rendered tokens [replace_match] can return. *)
Definition replacement_tokens (self : MaskingService) : list pystr :=
  lit "[MASKED_TERM]" :: ((λ e, lit "[" ++ e.2 ++ lit "]") <$> token_map self).

(** Number of characters of the text a run of pieces stands for. *)
Fixpoint consumed (ps : list piece) : nat :=
  match ps with
  | [] => 0
  | Verbatim _ :: ps' => S (consumed ps')
  | Matched m :: ps' => length m + consumed ps'
  end.

(** The pieces [mask_text] renders: none are matched without a pattern. *)
Definition mask_pieces (self : MaskingService) (text : pystr) : list piece :=
  match pattern self, text with
  | None, _ => Verbatim <$> text
  | _, [] => []
  | Some alts, _ => scan alts text 0
  end.

(** The two replacement rules of [mask_structure] on one entry of a mapping. *)
Definition mask_entry (self : MaskingService) (kv : pystr * value)
  : pystr * value :=
  (kv.1, if decide (kv.1 ∈ sensitive_keys self) then MASKED_VALUE
         else mask_structure self kv.2).

Definition empty_service : MaskingService := make_service [] [] [].

(** Two pieces that agree up to letter case. *)
Definition piece_ci (p1 p2 : piece) : Prop :=
  match p1, p2 with
  | Verbatim a, Verbatim b => lower_char a = lower_char b
  | Matched m1, Matched m2 => lower m1 = lower m2
  | _, _ => False
  end.

(** The response does not carry [response.generations[0][0].text]. *)
Definition lacks_text (r : response) : Prop :=
  ¬ ∃ g gs gss t, generations r = Some ((g :: gs) :: gss) ∧ text g = Some t.

(** ** Further notions for the statements *)

(** The part of the text a piece stands for. *)
Definition piece_text (p : piece) : pystr :=
  match p with
  | Verbatim c => [c]
  | Matched m => m
  end.

(** Two term lists that hold the same terms up to letter case, whatever the
    order and the number of repetitions. *)
Definition same_terms_up_to_case (terms1 terms2 : list pystr) : Prop :=
  (∀ t, t ∈ terms1 → ∃ u, u ∈ terms2 ∧ lower u = lower t) ∧
  (∀ t, t ∈ terms2 → ∃ u, u ∈ terms1 ∧ lower u = lower t).

(** No object that [json.dumps] refuses occurs in the value. *)
Fixpoint serialisable (v : value) : bool :=
  match v with
  | VDict items =>
      (fix all (items : list (pystr * value)) : bool :=
         match items with
         | [] => true
         | (_, v) :: items' => serialisable v && all items'
         end) items
  | VList elems =>
      (fix all (elems : list value) : bool :=
         match elems with
         | [] => true
         | v :: elems' => serialisable v && all elems'
         end) elems
  | VStr _ => true
  | VScalar (PyObject _) => false
  | VScalar _ => true
  end.

(** The first error of a list of results, or all their values. *)
Fixpoint all_results {A : Type} (rs : list (result A)) : result (list A) :=
  match rs with
  | [] => Ok []
  | Ok a :: rs' =>
      match all_results rs' with
      | Ok l => Ok (a :: l)
      | Raise e => Raise e
      end
  | Raise e :: _ => Raise e
  end.

(** One ["key": value] member of a JSON object. *)
Definition json_member (kv : pystr * value) : result pystr :=
  match json_dumps kv.2 with
  | Ok p => Ok (json_string kv.1 ++ lit ": " ++ p)
  | Raise e => Raise e
  end.

(** The strings that stand in value position anywhere in a structure. *)
Fixpoint string_values (v : value) : list pystr :=
  match v with
  | VDict items =>
      (fix each (items : list (pystr * value)) : list pystr :=
         match items with
         | [] => []
         | (_, v) :: items' => string_values v ++ each items'
         end) items
  | VList elems =>
      (fix each (elems : list value) : list pystr :=
         match elems with
         | [] => []
         | v :: elems' => string_values v ++ each elems'
         end) elems
  | VStr s => [s]
  | VScalar _ => []
  end.

(** ** The data classes of [main.py]

    [DesignSpace.format] and [PriorData.format] render values with [str],
    which is taken as a parameter: [str_value] for the entries of a parameter
    specification and [str_obs] for an observation. *)

Definition newline : pystr := [ascii_of_nat 10].

(** [str(i)] for a natural number. *)
Definition decimal (i : nat) : pystr := lit (NilZero.string_of_uint (Nat.to_uint i)).

(** [d.get(k)]: the value of the first (and only) entry under [k]. *)
Fixpoint dict_get {V : Type} (k : pystr) (d : list (pystr * V)) : option V :=
  match d with
  | [] => None
  | (k', v) :: d' => if decide (k' = k) then Some v else dict_get k d'
  end.

(** A computation that returns or raises [KeyError(key)]. *)
Inductive keyed (A : Type) :=
  | Returned (a : A)
  | KeyError (key : pystr).
Arguments Returned {A} a.
Arguments KeyError {A} key.

Section DataClasses.

Context {V Obs : Type} (str_value : V → pystr) (str_obs : Obs → pystr).

Record DesignSpace := {
  target_property : pystr;
  parameters : list (pystr * list (pystr * V))
}.

(** [spec.get(key, default)] inside the f-string. *)
Definition spec_get (spec : list (pystr * V)) (key default : pystr) : pystr :=
  match dict_get key spec with
  | Some v => str_value v
  | None => default
  end.

(** The line appended for one parameter; [spec['value']] raises when the
    entry is missing. *)
Definition parameter_line (name : pystr) (spec : list (pystr * V)) : keyed pystr :=
  match dict_get (lit "value") spec with
  | None => KeyError (lit "value")
  | Some v =>
      Returned (lit "  - " ++ name ++ lit ": " ++ str_value v ++ lit " " ++
                spec_get spec (lit "unit") (lit "") ++ lit " (range: " ++
                spec_get spec (lit "min") (lit "?") ++ lit " - " ++
                spec_get spec (lit "max") (lit "?") ++ lit ")")
  end.

(** The loop of [DesignSpace.format] over [self.parameters.items()]. *)
Fixpoint parameter_lines (params : list (pystr * list (pystr * V)))
  : keyed (list pystr) :=
  match params with
  | [] => Returned []
  | (name, spec) :: params' =>
      match parameter_line name spec with
      | KeyError k => KeyError k
      | Returned line =>
          match parameter_lines params' with
          | KeyError k => KeyError k
          | Returned lines => Returned (line :: lines)
          end
      end
  end.

Definition DesignSpace_format (self : DesignSpace) : keyed pystr :=
  match parameter_lines (parameters self) with
  | KeyError k => KeyError k
  | Returned lines =>
      Returned (join newline
                  ((lit "Target Property: " ++ target_property self) ::
                   lit "Parameters:" :: lines))
  end.

(** The loop of [PriorData.format] over [enumerate(self.observations, i)]. *)
Fixpoint iteration_lines (i : nat) (observations : list Obs) : list pystr :=
  match observations with
  | [] => []
  | obs :: observations' =>
      (lit "Iteration " ++ decimal i ++ lit ": " ++ str_obs obs) ::
      iteration_lines (S i) observations'
  end.

Definition PriorData_format (observations : list Obs) : pystr :=
  match observations with
  | [] => lit "(No prior observations)"
  | _ => join newline (iteration_lines 1 observations)
  end.

End DataClasses.

(** Two pieces that agree up to letter case and are rendered alike: two
    characters equal up to case, or two matched spans equal up to case that
    get the same replacement token. *)
Definition masked_alike (self : MaskingService) (p1 p2 : piece) : Prop :=
  match p1, p2 with
  | Verbatim a, Verbatim b => lower_char a = lower_char b
  | Matched m1, Matched m2 =>
      lower m1 = lower m2 ∧ replace_match self m1 = replace_match self m2
  | _, _ => False
  end.

(** A value without nesting: a string or a scalar. *)
Definition flat (v : value) : bool :=
  match v with
  | VStr _ | VScalar _ => true
  | VDict _ | VList _ => false
  end.

(** An entry of the inputs whose value reaches [json.dumps] as an object it
    refuses: the key is not sensitive and the value is such an object. *)
Definition exposes_object (self : MaskingService) (kv : pystr * value) : bool :=
  bool_decide (kv.1 ∉ sensitive_keys self) && negb (serialisable kv.2).

(** Two Latin-1 letters: e with acute accent, small and capital. *)
Definition e_acute : ascii := ascii_of_nat 233.
Definition E_acute : ascii := ascii_of_nat 201.

(** ** Examples *)

Example acid_spill :
  mask_text acid_service (lit "hydrochloric acid spill") = lit "[HAZ1] spill".
Proof. vm_compute. reflexivity. Qed.

Example acid_cases :
  mask_text acid_service (lit "ACID") = lit "[MASKED_TERM]" ∧
  mask_text acid_service (lit "Acid") = lit "[MASKED_TERM]" ∧
  mask_text acid_service (lit "an aCiD, Hydrochloric ACID.") =
    lit "an [MASKED_TERM], [HAZ1].".
Proof. vm_compute. done. Qed.

Example latin1_letters_fold :
  mask_text (make_service [] [[e_acute]] [([e_acute], lit "X")]) [E_acute] = lit "[X]" ∧
  mask_text (make_service [] [[e_acute]; E_acute :: lit "a"] []) (e_acute :: lit "a")
    = lit "[MASKED_TERM]".
Proof. by vm_compute. Qed.

Example empty_term_scan :
  re_sub [lit "a"; lit ""] (λ _, lit "-") (lit "xab") = lit "-x--b-".
Proof. vm_compute. reflexivity. Qed.

Example password_precedence :
  mask_structure (make_service [lit "password"] [lit "acid"] [])
    (VDict [(lit "password", VDict [(lit "raw", VStr (lit "acid"))]);
            (lit "note", VList [VStr (lit "Acid bath"); VScalar (PyInt 5)])])
  = VDict [(lit "password", MASKED_VALUE);
           (lit "note", VList [VStr (lit "[MASKED_TERM] bath"); VScalar (PyInt 5)])].
Proof. vm_compute. reflexivity. Qed.

Example json_dumps_sample :
  json_dumps (VDict [(lit "a", VList [VScalar (PyInt (-5)); VScalar PyNone]);
                     (lit "q", VStr [dquote])])
  = Ok (lit "{" ++ [dquote] ++ lit "a" ++ [dquote] ++ lit ": [-5, null], " ++
        [dquote] ++ lit "q" ++ [dquote] ++ lit ": " ++
        [dquote; bslash; dquote; dquote] ++ lit "}").
Proof. vm_compute. reflexivity. Qed.

Example llm_end_sample :
  on_llm_end acid_service
    {| generations := Some [[ {| text := Some (lit "Use Acid.") |} ]] |} []
  = (Ok tt, [lit "LLM END - Response: Use [MASKED_TERM]...."]).
Proof. vm_compute. reflexivity. Qed.

Example chain_start_sample :
  on_chain_start acid_service [(lit "q", VStr (lit "acid"))] []
  = (Ok tt, [lit "CHAIN START - Inputs: {" ++ [dquote] ++ lit "q" ++ [dquote] ++
             lit ": " ++ [dquote] ++ lit "[MASKED_TERM]" ++ [dquote] ++ lit "}..."]).
Proof. vm_compute. reflexivity. Qed.

(** ** Strings: case folding and substrings *)

Lemma lower_length s : length (lower s) = length s.
Proof. apply length_fmap. Qed.

Lemma lower_app s1 s2 : lower (s1 ++ s2) = lower s1 ++ lower s2.
Proof. apply fmap_app. Qed.

Lemma lower_char_idemp c : lower_char (lower_char c) = lower_char c.
Proof. destruct c as [[] [] [] [] [] [] [] []]; reflexivity. Qed.

Lemma lower_idemp s : lower (lower s) = lower s.
Proof.
  unfold lower. rewrite <- list_fmap_compose. apply list_fmap_ext.
  intros _ c _. apply lower_char_idemp.
Qed.

(** No letter folds to a bracket. *)
Lemma lower_char_lbracket c : lower_char c = lbracket → c = lbracket.
Proof. destruct c as [[] [] [] [] [] [] [] []]; vm_compute; congruence. Qed.

Lemma lower_char_rbracket c : lower_char c = rbracket → c = rbracket.
Proof. destruct c as [[] [] [] [] [] [] [] []]; vm_compute; congruence. Qed.

Lemma starts_with_spec p x : starts_with p x = true ↔ p `prefix_of` x.
Proof.
  revert x. induction p as [|a p IH]; intros [|b x]; simpl.
  - split; [intros _; apply prefix_nil | done].
  - split; [intros _; apply prefix_nil | done].
  - split; [done | intros [k Hk]; discriminate].
  - destruct (decide (a = b)) as [->|Hne].
    + rewrite IH. split; [apply prefix_cons | apply prefix_cons_inv_2].
    + split; [done | intros H; apply prefix_cons_inv_1 in H; done].
Qed.

Lemma str_contains_spec p x :
  str_contains p x = true ↔ ∃ pre post, x = pre ++ p ++ post.
Proof.
  induction x as [|b x IH]; simpl.
  - rewrite orb_false_r, starts_with_spec. split.
    + intros [k Hk]. exists [], k. done.
    + intros (pre & post & H). symmetry in H.
      apply app_eq_nil in H as [-> H]. apply app_eq_nil in H as [-> _].
      apply prefix_nil.
  - rewrite orb_true_iff, starts_with_spec, IH. split.
    + intros [[k Hk] | (pre & post & ->)].
      * exists [], k. done.
      * exists (b :: pre), post. done.
    + intros (pre & post & H). destruct pre as [|c pre]; simpl in H.
      * left. exists post. done.
      * right. injection H as _ ->. eauto.
Qed.

Lemma str_contains_ci k m :
  str_contains (lower k) (lower m) = true ↔ ci_substring k m.
Proof. apply str_contains_spec. Qed.

#[global] Instance ci_substring_dec k m : Decision (ci_substring k m).
Proof.
  destruct (str_contains (lower k) (lower m)) eqn:E.
  - left. by apply str_contains_ci.
  - right. intros H. apply str_contains_ci in H. congruence.
Defined.

(** ** The literal matcher *)

Lemma match_literal_spec t x m :
  match_literal t x = Some m ↔ m = take (length t) x ∧ ci_prefix t x.
Proof.
  unfold ci_prefix. revert x m.
  induction t as [|a t IH]; intros [|c x] m; simpl.
  - split; [intros [= <-]; split; [done | apply prefix_nil] | intros [-> _]; done].
  - split; [intros [= <-]; split; [done | apply prefix_nil] | intros [-> _]; done].
  - split; [done | intros [_ [k Hk]]; discriminate].
  - destruct (decide (lower_char a = lower_char c)) as [Heq|Hne].
    + rewrite Heq. destruct (match_literal t x) as [m'|] eqn:E; simpl.
      * apply IH in E as [-> Hp]. split.
        -- intros [= <-]. split; [done | by apply prefix_cons].
        -- intros [-> _]. done.
      * split; [done |]. intros [-> Hp]. apply prefix_cons_inv_2 in Hp.
        assert (match_literal t x = Some (take (length t) x)) by (by apply IH).
        congruence.
    + split; [done | intros [_ Hp]; apply prefix_cons_inv_1 in Hp; done].
Qed.

Lemma match_literal_none t x : match_literal t x = None ↔ ¬ ci_prefix t x.
Proof.
  split.
  - intros E Hp.
    assert (match_literal t x = Some (take (length t) x))
      by (by apply match_literal_spec).
    congruence.
  - intros Hn. destruct (match_literal t x) as [m|] eqn:E; [|done].
    apply match_literal_spec in E as [_ Hp]. done.
Qed.

Lemma ci_prefix_length t x : ci_prefix t x → length t ≤ length x.
Proof.
  intros H. apply prefix_length in H. by rewrite !lower_length in H.
Qed.

Lemma ci_prefix_take t x : ci_prefix t x → lower (take (length t) x) = lower t.
Proof.
  intros [k Hk]. unfold lower in *. rewrite fmap_take, Hk.
  rewrite <- (length_fmap lower_char t). by rewrite take_app_length.
Qed.

Lemma match_literal_length t x m :
  match_literal t x = Some m → length m = length t.
Proof.
  intros H. apply match_literal_spec in H as [-> Hp].
  apply ci_prefix_length in Hp. rewrite length_take. lia.
Qed.

Lemma match_literal_nil t x m :
  match_literal t x = Some m → (m = [] ↔ t = []).
Proof.
  intros H. apply match_literal_length in H.
  destruct m, t; simpl in H; split; intros; done.
Qed.

Lemma match_literal_split t x m :
  match_literal t x = Some m → x = m ++ drop (length m) x.
Proof.
  intros H. apply match_literal_spec in H as [-> Hp].
  apply ci_prefix_length in Hp.
  rewrite length_take, Nat.min_l by lia. by rewrite take_drop.
Qed.

(** ** The alternation *)

Lemma match_here_first alts x adv m :
  match_here alts x adv = Some m →
  ∃ pre t post,
    alts = pre ++ t :: post ∧ match_literal t x = Some m ∧
    (adv = true → t ≠ []) ∧
    Forall (λ u, ci_prefix u x → adv = true ∧ u = []) pre.
Proof.
  induction alts as [|u alts IH]; simpl; [done |].
  destruct (match_literal u x) as [mu|] eqn:E.
  - destruct (adv && bool_decide (mu = [])) eqn:Hadv.
    + intros H. destruct (IH H) as (pre & t & post & -> & Ht & Hne & Hpre).
      exists (u :: pre), t, post. repeat split; try done.
      constructor; [|done]. intros _.
      apply andb_true_iff in Hadv as [-> Hnil].
      apply bool_decide_eq_true in Hnil.
      split; [done | by apply (match_literal_nil _ _ _ E)].
    + intros [= <-]. exists [], u, alts. repeat split; try done.
      intros -> ->. simpl in E. destruct x; simplify_eq.
  - intros H. destruct (IH H) as (pre & t & post & -> & Ht & Hne & Hpre).
    exists (u :: pre), t, post. repeat split; try done.
    constructor; [|done]. intros Hp. by apply match_literal_none in E.
Qed.

Lemma match_here_none alts x adv :
  match_here alts x adv = None ↔
  Forall (λ u, ci_prefix u x → adv = true ∧ u = []) alts.
Proof.
  induction alts as [|u alts IH]; simpl; [split; [constructor | done] |].
  destruct (match_literal u x) as [mu|] eqn:E.
  - destruct (adv && bool_decide (mu = [])) eqn:Hadv.
    + rewrite IH. apply andb_true_iff in Hadv as [-> Hnil].
      apply bool_decide_eq_true in Hnil.
      split.
      * intros H. constructor; [|done]. intros _.
        split; [done | by apply (match_literal_nil _ _ _ E)].
      * intros H. by apply Forall_cons in H as [_ H].
    + split; [done |]. intros H. apply Forall_cons in H as [H _].
      apply match_literal_spec in E as [-> Hp].
      destruct (H Hp) as [-> ->]. done.
  - rewrite IH. split.
    + intros H. constructor; [|done]. intros Hp. by apply match_literal_none in E.
    + intros H. by apply Forall_cons in H as [_ H].
Qed.

(** ** Sorting the terms *)

Lemma insert_by_len_elem u t l : u ∈ insert_by_len t l ↔ u = t ∨ u ∈ l.
Proof.
  induction l as [|v l IH]; simpl.
  - rewrite list_elem_of_singleton, elem_of_nil. tauto.
  - destruct (length v <=? length t)%nat.
    + by rewrite elem_of_cons.
    + rewrite !elem_of_cons, IH. tauto.
Qed.

Lemma sorted_by_len_desc_elem u terms :
  u ∈ sorted_by_len_desc terms ↔ u ∈ terms.
Proof.
  induction terms as [|t terms IH]; simpl; [done |].
  by rewrite insert_by_len_elem, IH, elem_of_cons.
Qed.

Lemma insert_by_len_sorted t l :
  StronglySorted longer_first l → StronglySorted longer_first (insert_by_len t l).
Proof.
  induction 1 as [|v l Hs IH Hv]; simpl.
  - repeat constructor.
  - destruct (length v <=? length t)%nat eqn:E.
    + apply Nat.leb_le in E. constructor; [by constructor |].
      constructor; [done |].
      eapply Forall_impl; [exact Hv |]. unfold longer_first. intros; simpl in *; lia.
    + apply Nat.leb_gt in E. constructor; [done |].
      apply Forall_forall. intros u Hu. apply insert_by_len_elem in Hu as [->|Hu].
      * unfold longer_first. lia.
      * by eapply Forall_forall in Hv.
Qed.

Lemma sorted_by_len_desc_sorted terms :
  StronglySorted longer_first (sorted_by_len_desc terms).
Proof.
  induction terms as [|t terms IH]; simpl; [constructor |].
  by apply insert_by_len_sorted.
Qed.

Lemma compile_pattern_some terms alts :
  compile_pattern terms = Some alts → alts = sorted_by_len_desc terms.
Proof. unfold compile_pattern. destruct (sorted_by_len_desc terms); congruence. Qed.

Lemma compile_pattern_none terms : compile_pattern terms = None ↔ terms = [].
Proof.
  unfold compile_pattern. split.
  - destruct terms as [|t terms]; [done |]. simpl.
    destruct (sorted_by_len_desc terms) as [|u l]; simpl; [done |].
    destruct (length u <=? length t)%nat; done.
  - intros ->. done.
Qed.

(** In a sorted alternation the reported match is as long as any term that
    matches at the position. *)
Lemma match_here_longest alts x adv m t :
  StronglySorted longer_first alts →
  match_here alts x adv = Some m →
  t ∈ alts → ci_prefix t x → length t ≤ length m.
Proof.
  intros Hs Hm Ht Hp.
  destruct (match_here_first _ _ _ _ Hm) as (pre & u & post & -> & Hu & _ & Hpre).
  rewrite (match_literal_length _ _ _ Hu).
  apply elem_of_app in Ht as [Ht|Ht].
  - eapply Forall_forall in Hpre; [|exact Ht].
    destruct (Hpre Hp) as [_ ->]. simpl. lia.
  - apply elem_of_cons in Ht as [->|Ht]; [done |].
    apply StronglySorted_app_1_r in Hs. apply StronglySorted_inv in Hs as [_ Hs].
    eapply Forall_forall in Hs; [|exact Ht]. exact Hs.
Qed.

(** ** The scan *)

Lemma scan_skip alts x k :
  k ≤ length x → scan alts x k = scan alts (drop k x) 0.
Proof.
  revert k. induction x as [|c x IH]; intros [|k] Hk; simpl in *; try done; try lia.
  apply IH. lia.
Qed.

(** Once the terms are sorted the empty alternative comes last, so the retry
    after an empty match finds nothing at the same position. *)
Lemma match_here_after_empty alts x :
  StronglySorted longer_first alts →
  match_here alts x false = Some [] → match_here alts x true = None.
Proof.
  intros Hs Hm.
  destruct (match_here_first _ _ _ _ Hm) as (pre & t & post & -> & Ht & _ & Hpre).
  apply match_here_none. apply Forall_app. split.
  - eapply Forall_impl; [exact Hpre |]. intros u Hu Hp. by destruct (Hu Hp).
  - assert (t = []) as -> by (by apply (match_literal_nil _ _ _ Ht)).
    constructor; [done |].
    apply StronglySorted_app_1_r in Hs. apply StronglySorted_inv in Hs as [_ Hs].
    eapply Forall_impl; [exact Hs |]. unfold longer_first. simpl.
    intros u Hu _. split; [done |]. destruct u; simpl in Hu; [done | lia].
Qed.

Lemma match_here_fits alts x adv m :
  match_here alts x adv = Some m → x = m ++ drop (length m) x.
Proof.
  intros Hm.
  destruct (match_here_first _ _ _ _ Hm) as (pre & t & post & _ & Ht & _).
  by apply match_literal_split in Ht.
Qed.

Lemma scan_cons alts c x :
  StronglySorted longer_first alts →
  scan alts (c :: x) 0 =
    match match_here alts (c :: x) false with
    | None => Verbatim c :: scan alts x 0
    | Some m =>
        Matched m ::
        if decide (m = []) then Verbatim c :: scan alts x 0
        else scan alts (drop (length m) (c :: x)) 0
    end.
Proof.
  intros Hs. simpl. destruct (match_here alts (c :: x) false) as [m|] eqn:Hm; [|done].
  destruct m as [|a m].
  - by rewrite (match_here_after_empty _ _ Hs Hm).
  - rewrite decide_False by done. f_equal. simpl.
    apply match_here_fits in Hm. apply (f_equal length) in Hm.
    rewrite length_app, length_drop in Hm. simpl in Hm.
    rewrite Nat.sub_0_r. apply scan_skip. lia.
Qed.

Lemma scan_nil alts :
  scan alts [] 0 =
    match match_here alts [] false with
    | Some m => [Matched m]
    | None => []
    end.
Proof. done. Qed.

(** Strong induction on the length of the text left to scan. *)
Lemma text_ind (P : pystr → Prop) :
  (∀ x, (∀ y, length y < length x → P y) → P x) → ∀ x, P x.
Proof.
  intros H x. remember (length x) as n eqn:Hn. revert x Hn.
  induction n as [n IH] using lt_wf_ind. intros x ->.
  apply H. intros y Hy. by apply (IH (length y)).
Qed.

(** Every matched span of the scan is what the alternation reports at the
    position of the span. *)
Lemma scan_matched_at alts x ps1 m ps2 :
  StronglySorted longer_first alts →
  scan alts x 0 = ps1 ++ Matched m :: ps2 →
  match_here alts (drop (consumed ps1) x) false = Some m.
Proof.
  intros Hs. revert ps1. induction x as [x IH] using text_ind. intros ps1 Hscan.
  destruct x as [|c x].
  - rewrite scan_nil in Hscan.
    destruct (match_here alts [] false) as [m0|] eqn:Hm.
    + destruct ps1 as [|p ps1]; simpl in Hscan.
      * injection Hscan as <- _. by rewrite drop_nil.
      * injection Hscan as _ Hscan. by destruct ps1.
    + by destruct ps1.
  - rewrite scan_cons in Hscan by done.
    destruct (match_here alts (c :: x) false) as [m0|] eqn:Hm.
    + destruct ps1 as [|p ps1]; simpl in Hscan.
      * by injection Hscan as <- _.
      * injection Hscan as <- Hscan. simpl.
        destruct (decide (m0 = [])) as [->|Hne].
        -- destruct ps1 as [|p ps1]; simpl in Hscan; [done |].
           injection Hscan as <- Hscan. simpl.
           apply (IH x); simpl; try done; lia.
        -- rewrite <- drop_drop.
           apply (IH (drop (length m0) (c :: x))); try done.
           rewrite length_drop. destruct m0; simpl; [done | lia].
    + destruct ps1 as [|p ps1]; simpl in Hscan; [done |].
      injection Hscan as <- Hscan. simpl.
      apply (IH x); simpl; try done; lia.
Qed.

Lemma mask_pieces_scan keys terms tokens text p :
  Matched p ∈ mask_pieces (make_service keys terms tokens) text →
  mask_pieces (make_service keys terms tokens) text =
    scan (sorted_by_len_desc terms) text 0.
Proof.
  unfold mask_pieces. simpl. destruct (compile_pattern terms) as [alts|] eqn:E.
  - apply compile_pattern_some in E as ->. destruct text; [|done].
    intros H. by apply elem_of_nil in H.
  - intros H. apply list_elem_of_fmap in H as (c & Hc & _). done.
Qed.

Lemma mask_text_pieces self text :
  mask_text self text =
    concat (render (replace_match self) <$> mask_pieces self text).
Proof.
  unfold mask_text, mask_pieces, re_sub.
  destruct (pattern self) as [alts|].
  - by destruct text.
  - induction text as [|c text IH]; simpl; [done |]. by f_equal.
Qed.

(** C1. Longest match first.  With the terms "acid" and "hydrochloric acid"
    and the token "HAZ1" for the longer one, masking "hydrochloric acid spill"
    gives "[HAZ1] spill" and not "[MASKED_TERM] acid spill".  In general, for
    every configuration and text, [mask_text] renders the pieces of the scan,
    each span it replaces is the match of a configured term at the position
    of the span, and no configured term that matches at that position
    (ignoring case) is longer than the span: of two terms one of which
    extends the other, the longer one is taken wherever both match. *)
Theorem longest_match_first :
  mask_text acid_service (lit "hydrochloric acid spill") = lit "[HAZ1] spill" ∧
  mask_text acid_service (lit "hydrochloric acid spill")
    ≠ lit "[MASKED_TERM] acid spill" ∧
  ∀ keys terms tokens text,
    let self := make_service keys terms tokens in
    mask_text self text =
      concat (render (replace_match self) <$> mask_pieces self text) ∧
    ∀ ps1 m ps2,
      mask_pieces self text = ps1 ++ Matched m :: ps2 →
      let here := drop (consumed ps1) text in
      (∃ u, u ∈ terms ∧ match_literal u here = Some m) ∧
      (∀ t, t ∈ terms → ci_prefix t here → length t ≤ length m).
Proof.
  split; [by vm_compute |]. split; [by vm_compute |].
  intros keys terms tokens text self. split; [apply mask_text_pieces |].
  intros ps1 m ps2 Hps here.
  assert (Matched m ∈ mask_pieces self text) as Hin.
  { rewrite Hps. apply elem_of_app. right. apply elem_of_cons. by left. }
  unfold self in Hps, Hin. rewrite (mask_pieces_scan _ _ _ _ _ Hin) in Hps.
  pose proof (sorted_by_len_desc_sorted terms) as Hs.
  apply scan_matched_at in Hps; [|done]. fold here in Hps. split.
  - destruct (match_here_first _ _ _ _ Hps) as (pre & u & post & Halts & Hu & _).
    exists u. split; [|done].
    apply sorted_by_len_desc_elem. rewrite Halts.
    apply elem_of_app. right. apply elem_of_cons. by left.
  - intros t Ht Hp. eapply match_here_longest; try done.
    by apply sorted_by_len_desc_elem.
Qed.

Lemma longest_match_first_witness :
  let terms := [lit "acid"; lit "acidic"] in
  let text := lit "Acidic soil" in
  mask_pieces (make_service [] terms []) text =
    [] ++ Matched (lit "Acidic") :: (Verbatim <$> lit " soil") ∧
  lit "acid" ∈ terms ∧ ci_prefix (lit "acid") text ∧
  length (lit "acid") ≤ length (lit "Acidic").
Proof.
  intros terms text.
  assert (mask_pieces (make_service [] terms []) text =
            [] ++ Matched (lit "Acidic") :: (Verbatim <$> lit " soil")) as Hps
    by (by vm_compute).
  assert (lit "acid" ∈ terms) as Hin by (apply elem_of_cons; by left).
  assert (ci_prefix (lit "acid") text) as Hp
    by (exists (lit "ic soil"); by vm_compute).
  repeat split; try done.
  destruct longest_match_first as (_ & _ & H).
  destruct (H [] terms [] text) as [_ H'].
  destruct (H' [] (lit "Acidic") (Verbatim <$> lit " soil") Hps) as [_ Hlen].
  exact (Hlen (lit "acid") Hin Hp).
Defined.

(** ** Token selection *)

Lemma find_token_first tokens m pre k tok post :
  tokens = pre ++ (k, tok) :: post →
  Forall (λ e, ¬ ci_substring e.1 m) pre →
  ci_substring k m →
  find_token tokens m = lit "[" ++ tok ++ lit "]".
Proof.
  intros -> Hpre Hk. induction Hpre as [|[k' tok'] pre Hk' _ IH]; simpl.
  - apply str_contains_ci in Hk. by rewrite Hk.
  - simpl in Hk'. destruct (str_contains (lower k') (lower m)) eqn:E; [|done].
    by apply str_contains_ci in E.
Qed.

Lemma find_token_none tokens m :
  Forall (λ e, ¬ ci_substring e.1 m) tokens →
  find_token tokens m = lit "[MASKED_TERM]".
Proof.
  induction 1 as [|[k tok] tokens Hk _ IH]; simpl; [done |].
  simpl in Hk. destruct (str_contains (lower k) (lower m)) eqn:E; [|done].
  by apply str_contains_ci in E.
Qed.

(** C6. Token selection.  [mask_text] copies unmatched characters and
    replaces each matched span [m] by [replace_match m]; that token is
    "[TOKEN]" for the first entry of the token map, in iteration order, whose
    key is a case-insensitive substring of [m], and "[MASKED_TERM]" when no
    entry has such a key. *)
Theorem token_selection self text :
  mask_text self text =
    concat ((λ p, match p with
                  | Verbatim c => [c]
                  | Matched m => replace_match self m
                  end) <$> mask_pieces self text) ∧
  ∀ m,
    (∀ pre k tok post,
       token_map self = pre ++ (k, tok) :: post →
       Forall (λ e, ¬ ci_substring e.1 m) pre →
       ci_substring k m →
       replace_match self m = lit "[" ++ tok ++ lit "]") ∧
    (Forall (λ e, ¬ ci_substring e.1 m) (token_map self) →
     replace_match self m = lit "[MASKED_TERM]").
Proof.
  split; [apply mask_text_pieces |]. intros m. split.
  - intros pre k tok post. apply find_token_first.
  - apply find_token_none.
Qed.

Lemma token_selection_witness :
  let self := make_service [] [lit "hydrochloric acid"]
                [(lit "base", lit "B"); (lit "ACID", lit "A"); (lit "hydro", lit "H")] in
  replace_match self (lit "Hydrochloric Acid") = lit "[A]".
Proof.
  intros self.
  destruct (token_selection self []) as [_ H].
  destruct (H (lit "Hydrochloric Acid")) as [Hfirst _].
  apply (Hfirst [(lit "base", lit "B")] (lit "ACID") (lit "A")
                [(lit "hydro", lit "H")] eq_refl).
  - apply (bool_decide_unpack _). by vm_compute.
  - apply (bool_decide_unpack _). by vm_compute.
Defined.

(** ** Structures *)

Lemma value_rect' (P : value → Prop) :
  (∀ items, Forall (λ kv, P kv.2) items → P (VDict items)) →
  (∀ elems, Forall P elems → P (VList elems)) →
  (∀ s, P (VStr s)) →
  (∀ x, P (VScalar x)) →
  ∀ v, P v.
Proof.
  intros Hd Hl Hs Hx. fix self 1. intros [items|elems|s|x].
  - apply Hd. induction items as [|[k v] items IH]; constructor; [apply self | exact IH].
  - apply Hl. induction elems as [|v elems IH]; constructor; [apply self | exact IH].
  - apply Hs.
  - apply Hx.
Qed.

Lemma dict_set_fresh {V} k (v : V) d :
  k ∉ d.*1 → dict_set k v d = d ++ [(k, v)].
Proof.
  induction d as [|[k' v'] d IH]; simpl; [done |].
  intros Hk. apply not_elem_of_cons in Hk as [Hne Hk].
  rewrite decide_False by done. by rewrite IH.
Qed.

(** The loop of [mask_structure] over the items of a mapping. *)
Lemma mask_structure_dict self items :
  mask_structure self (VDict items) =
    VDict (foldl (λ new_dict kv, dict_set kv.1 (mask_entry self kv).2 new_dict)
                 [] items).
Proof.
  simpl. f_equal. generalize (@nil (pystr * value)).
  induction items as [|[k v] items IH]; intros acc; simpl; [done |].
  apply IH.
Qed.

Lemma mask_loop_nodup self items acc :
  NoDup (acc.*1 ++ items.*1) →
  foldl (λ new_dict kv, dict_set kv.1 (mask_entry self kv).2 new_dict) acc items
  = acc ++ (mask_entry self <$> items).
Proof.
  revert acc. induction items as [|[k v] items IH]; intros acc Hnd; simpl.
  - by rewrite app_nil_r.
  - simpl in Hnd. apply NoDup_app in Hnd as (Hacc & Hdisj & Hit).
    apply NoDup_cons in Hit as [Hk Hit].
    rewrite dict_set_fresh.
    + rewrite IH.
      * by rewrite <- app_assoc.
      * rewrite fmap_app. simpl. rewrite <- app_assoc. simpl.
        apply NoDup_app. split; [done |]. split.
        -- intros x Hx. apply Hdisj in Hx. done.
        -- by apply NoDup_cons.
    + intros Hin. apply Hdisj in Hin. apply Hin. apply elem_of_cons. by left.
Qed.

Lemma mask_structure_entries self items :
  NoDup items.*1 →
  mask_structure self (VDict items) = VDict (mask_entry self <$> items).
Proof.
  intros Hnd. rewrite mask_structure_dict. by rewrite mask_loop_nodup.
Qed.

Lemma wf_value_dict items :
  wf_value (VDict items) = true ↔
  NoDup items.*1 ∧ Forall (λ kv, wf_value kv.2 = true) items.
Proof.
  simpl. rewrite andb_true_iff, bool_decide_eq_true.
  apply and_iff_compat_l.
  induction items as [|[k v] items IH]; simpl.
  - split; [constructor | done].
  - rewrite andb_true_iff, IH, Forall_cons. done.
Qed.

Lemma wf_value_list elems :
  wf_value (VList elems) = true ↔ Forall (λ v, wf_value v = true) elems.
Proof.
  simpl. induction elems as [|v elems IH]; simpl.
  - split; [constructor | done].
  - by rewrite andb_true_iff, IH, Forall_cons.
Qed.

(** C4. Key precedence.  For a mapping (no two equal keys), [mask_structure]
    returns the mapping with the same keys in the same order in which the
    value of every key that is in [sensitive_keys] is the literal
    "[MASKED_VALUE]", whatever the value was (it is not recursed into), and
    the value of every other key is the masked value. *)
Theorem sensitive_key_precedence self items :
  NoDup items.*1 →
  mask_structure self (VDict items) =
    VDict ((λ kv, (kv.1, if decide (kv.1 ∈ sensitive_keys self)
                         then VStr (lit "[MASKED_VALUE]")
                         else mask_structure self kv.2)) <$> items).
Proof. apply mask_structure_entries. Qed.

Lemma sensitive_key_precedence_witness :
  let self := make_service [lit "password"] [lit "acid"] [] in
  let items := [(lit "password", VDict [(lit "raw", VStr (lit "acid"))]);
                (lit "note", VStr (lit "acid"))] in
  NoDup items.*1 ∧
  mask_structure self (VDict items) =
    VDict [(lit "password", VStr (lit "[MASKED_VALUE]"));
           (lit "note", VStr (lit "[MASKED_TERM]"))].
Proof.
  intros self items.
  assert (NoDup items.*1) as Hnd by (apply (bool_decide_unpack _); by vm_compute).
  split; [exact Hnd |].
  rewrite (sensitive_key_precedence self items Hnd). by vm_compute.
Defined.

(** C10. Keys are never masked.  For a mapping (no two equal keys) the keys
    of the result of [mask_structure] are the keys of the input, verbatim and
    in the same order, also when a key contains a sensitive term; only values
    are rewritten. *)
Theorem keys_never_masked self items :
  NoDup items.*1 →
  ∃ out, mask_structure self (VDict items) = VDict out ∧ out.*1 = items.*1.
Proof.
  intros Hnd. eexists. split; [by apply mask_structure_entries |].
  rewrite <- list_fmap_compose. by apply list_fmap_ext.
Qed.

Lemma keys_never_masked_witness :
  let self := make_service [lit "password"] [lit "acid"] [] in
  let items := [(lit "acid level", VStr (lit "acid level"))] in
  NoDup items.*1 ∧
  ∃ out, mask_structure self (VDict items) = VDict out ∧ out.*1 = items.*1.
Proof.
  intros self items.
  assert (NoDup items.*1) as Hnd by (apply (bool_decide_unpack _); by vm_compute).
  split; [exact Hnd |]. exact (keys_never_masked self items Hnd).
Defined.

(** ** The empty configuration *)

Lemma mask_structure_empty v :
  wf_value v = true → mask_structure empty_service v = v.
Proof.
  induction v as [items IH|elems IH|s|x] using value_rect'; intros Hwf.
  - apply wf_value_dict in Hwf as [Hnd Hall].
    rewrite mask_structure_entries by done. f_equal.
    induction items as [|[k v] items IHitems]; [done |].
    apply Forall_cons in IH as [IHv IH]. apply Forall_cons in Hall as [Hv Hall].
    rewrite fmap_cons in Hnd. apply NoDup_cons in Hnd as [_ Hnd].
    rewrite fmap_cons, IHitems by done. unfold mask_entry. simpl.
    rewrite decide_False by apply not_elem_of_empty.
    simpl in IHv. by rewrite IHv.
  - apply wf_value_list in Hwf. simpl. f_equal.
    induction elems as [|v elems IHelems]; [done |].
    apply Forall_cons in IH as [IHv IH]. apply Forall_cons in Hwf as [Hv Hwf].
    by rewrite fmap_cons, IHv, IHelems.
  - done.
  - done.
Qed.

(** C7. The empty configuration is a no-op.  When the three entries of the
    configuration are empty (or absent), construction succeeds and the
    service returns every text unchanged and every structure (whose mappings
    have no two equal keys) unchanged. *)
Theorem empty_configuration_identity (config : document) text v :
  get (doc_sensitive_keys config) [] = [] →
  get (doc_sensitive_terms config) [] = [] →
  get (doc_token_map config) [] = [] →
  wf_value v = true →
  ∃ self, __init__ (Yaml (YamlMapping config)) = Ok self ∧
          mask_text self text = text ∧ mask_structure self v = v.
Proof.
  intros Hk Ht Hm Hwf. simpl. rewrite Hk, Ht, Hm.
  eexists. split; [done |]. split; [done |].
  by apply mask_structure_empty.
Qed.

Lemma empty_configuration_identity_witness :
  let config := {| doc_sensitive_keys := Some []; doc_sensitive_terms := None;
                   doc_token_map := Some [] |} in
  let v := VDict [(lit "count", VScalar (PyInt 5)); (lit "ok", VScalar (PyBool true));
                  (lit "note", VList [VScalar PyNone; VStr (lit "acid")])] in
  ∃ self, __init__ (Yaml (YamlMapping config)) = Ok self ∧
          mask_text self (lit "hydrochloric acid") = lit "hydrochloric acid" ∧
          mask_structure self v = v.
Proof.
  intros config v.
  apply (empty_configuration_identity config (lit "hydrochloric acid") v);
    reflexivity.
Defined.

(** ** The callback handlers *)

Lemma response_text_raises r : lacks_text r → ∃ e, response_text r = Raise e.
Proof.
  unfold lacks_text, response_text. intros H.
  destruct (generations r) as [[|[|g gs] gss]|]; eauto.
  destruct (text g) as [t|] eqn:E; eauto.
  exfalso. apply H. by exists g, gs, gss, t.
Qed.

(** C5. Fallback safety.  For a response that does not carry the generated
    text, [on_llm_end] returns normally and appends exactly one line to the
    log, the fixed line "LLM END - (Could not parse response text)", which
    holds nothing of the payload. *)
Theorem llm_end_fallback masker r l :
  lacks_text r →
  on_llm_end masker r l =
    (Ok tt, l ++ [lit "LLM END - (Could not parse response text)"]).
Proof.
  intros H. destruct (response_text_raises r H) as [e He].
  unfold on_llm_end, try_except, mbind, handler_bind, lift. by rewrite He.
Qed.

Lemma llm_end_fallback_witness :
  on_llm_end acid_service
    {| generations := Some [[ {| text := None |} ]; []] |} [lit "earlier line"]
  = (Ok tt, [lit "earlier line"; lit "LLM END - (Could not parse response text)"]).
Proof.
  apply (llm_end_fallback acid_service
           {| generations := Some [[ {| text := None |} ]; []] |}
           [lit "earlier line"]).
  intros (g & gs & gss & t & [= <- _ _] & Ht). discriminate Ht.
Defined.

(** [on_llm_end] catches every error of its body. *)
Lemma on_llm_end_never_raises masker r l : (on_llm_end masker r l).1 = Ok tt.
Proof.
  unfold on_llm_end, try_except, mbind, handler_bind, lift.
  by destruct (response_text r).
Qed.

(** C2. [on_chain_start] has no handler around its body: for an input
    mapping that holds, under a key that is not sensitive, an object
    [json.dumps] cannot serialise, the [TypeError] reaches the caller and
    nothing is logged. *)
Theorem on_chain_start_raises terms tokens l :
  on_chain_start (make_service [] terms tokens)
    [(lit "design_space", VScalar (PyObject 0))] l
  = (Raise TypeError, l).
Proof.
  unfold on_chain_start. rewrite mask_structure_entries.
  - unfold mbind, handler_bind, lift, mask_entry. simpl.
    by rewrite decide_False by apply not_elem_of_empty.
  - apply (bool_decide_unpack _). by vm_compute.
Qed.

(** ** Loading the configuration *)

Lemma init_not_found src : __init__ src = Raise FileNotFoundError ↔ src = NoSuchFile.
Proof. destruct src as [| |[|d]]; simpl; split; congruence. Qed.

Lemma init_parse_error src : __init__ src = Raise YAMLError ↔ src = NotYaml.
Proof. destruct src as [| |[|d]]; simpl; split; congruence. Qed.

Lemma init_defaults src self :
  __init__ src = Ok self →
  ∃ d, src = Yaml (YamlMapping d) ∧
       sensitive_keys self = list_to_set (get (doc_sensitive_keys d) []) ∧
       sensitive_terms self = get (doc_sensitive_terms d) [] ∧
       token_map self = get (doc_token_map d) [].
Proof.
  destruct src as [| |[|d]]; simpl; try done. intros [= <-]. exists d.
  by destruct d as [[] [] []].
Qed.

(** C9. An empty configuration document, in which all three entries are
    absent, does not load: [yaml.safe_load] returns [None] for it and
    [self.config.get] raises [AttributeError]. *)
Theorem init_empty_document : __init__ (Yaml YamlNone) = Raise AttributeError.
Proof. reflexivity. Qed.

(** ** Letter case *)

Lemma lower_eq_length x1 x2 : lower x1 = lower x2 → length x1 = length x2.
Proof. intros H. apply (f_equal length) in H. by rewrite !lower_length in H. Qed.

Lemma lower_take n x : lower (take n x) = take n (lower x).
Proof. apply fmap_take. Qed.

Lemma match_literal_ci t x1 x2 :
  lower x1 = lower x2 →
  option_Forall2 (λ m1 m2, lower m1 = lower m2)
    (match_literal t x1) (match_literal t x2).
Proof.
  intros Hx.
  destruct (match_literal t x1) as [m1|] eqn:E1.
  - apply match_literal_spec in E1 as [-> Hp]. unfold ci_prefix in Hp.
    rewrite Hx in Hp.
    assert (match_literal t x2 = Some (take (length t) x2)) as ->
      by (by apply match_literal_spec).
    constructor. by rewrite !lower_take, Hx.
  - apply match_literal_none in E1. unfold ci_prefix in E1. rewrite Hx in E1.
    apply match_literal_none in E1. rewrite E1. constructor.
Qed.

Lemma match_here_ci alts x1 x2 adv :
  lower x1 = lower x2 →
  option_Forall2 (λ m1 m2, lower m1 = lower m2)
    (match_here alts x1 adv) (match_here alts x2 adv).
Proof.
  intros Hx. induction alts as [|t alts IH]; simpl; [constructor |].
  destruct (match_literal_ci t x1 x2 Hx) as [m1 m2 Hm|]; [|done].
  assert (bool_decide (m1 = []) = bool_decide (m2 = [])) as ->.
  { apply lower_eq_length in Hm. apply bool_decide_ext.
    destruct m1, m2; simpl in Hm; split; intros; done. }
  destruct (adv && bool_decide (m2 = [])); [done |]. by constructor.
Qed.

Lemma scan_ci alts x1 x2 k :
  lower x1 = lower x2 → Forall2 piece_ci (scan alts x1 k) (scan alts x2 k).
Proof.
  revert x2 k. induction x1 as [|c1 x1 IH]; intros [|c2 x2] k Hx; try done.
  - simpl. destruct k; [|constructor].
    destruct (match_here alts [] false); repeat constructor.
  - injection Hx as Hc Hx. destruct k as [|k]; [|simpl; by apply IH].
    assert (lower (c1 :: x1) = lower (c2 :: x2)) as Hcx by (simpl; congruence).
    simpl scan.
    destruct (match_here_ci alts _ _ false Hcx) as [m1 m2 Hm|].
    + pose proof (lower_eq_length _ _ Hm) as Hl.
      destruct m1 as [|a1 m1], m2 as [|a2 m2]; try done.
      * constructor; [done |].
        destruct (match_here_ci alts _ _ true Hcx) as [n1 n2 Hn|].
        -- constructor; [done |].
           rewrite (lower_eq_length _ _ Hn). by apply IH.
        -- constructor; [done |]. by apply IH.
      * constructor; [done |]. rewrite Hl. by apply IH.
    + constructor; [done |]. by apply IH.
Qed.

Lemma find_token_ci tokens m1 m2 :
  lower m1 = lower m2 → find_token tokens m1 = find_token tokens m2.
Proof.
  intros Hm. induction tokens as [|[k tok] tokens IH]; simpl; [done |].
  by rewrite Hm, IH.
Qed.

Lemma render_ci tokens ps1 ps2 :
  Forall2 piece_ci ps1 ps2 →
  lower (concat (render (find_token tokens) <$> ps1)) =
  lower (concat (render (find_token tokens) <$> ps2)).
Proof.
  induction 1 as [|p1 p2 ps1 ps2 Hp _ IH]; [done |].
  rewrite !fmap_cons. simpl. rewrite !lower_app, IH. f_equal.
  destruct p1, p2; simpl in *; try done.
  - by rewrite Hp.
  - by rewrite (find_token_ci _ _ _ Hp).
Qed.

Lemma mask_pieces_ci self x1 x2 :
  lower x1 = lower x2 →
  Forall2 piece_ci (mask_pieces self x1) (mask_pieces self x2).
Proof.
  intros Hx. unfold mask_pieces. destruct (pattern self) as [alts|].
  - destruct x1, x2; try done. by apply scan_ci.
  - apply Forall2_fmap. revert x2 Hx.
    induction x1 as [|c1 x1 IH]; intros [|c2 x2] Hx; try done.
    injection Hx as Hc Hx. constructor; [done | by apply IH].
Qed.

(** A text that is, up to case, one of the terms is matched as a whole. *)
Lemma mask_text_whole_term keys terms tokens t x :
  t ∈ terms → lower x = lower t → x ≠ [] →
  mask_text (make_service keys terms tokens) x =
    find_token tokens t ++
    concat (render (find_token tokens) <$> scan (sorted_by_len_desc terms) [] 0).
Proof.
  intros Ht Hx Hne. unfold mask_text. simpl.
  destruct (compile_pattern terms) as [alts|] eqn:E.
  - apply compile_pattern_some in E as ->.
    destruct x as [|c x]; [done |]. clear Hne.
    pose proof (sorted_by_len_desc_sorted terms) as Hs.
    assert (ci_prefix t (c :: x)) as Hp by (unfold ci_prefix; by rewrite Hx).
    apply sorted_by_len_desc_elem in Ht.
    unfold re_sub. rewrite scan_cons by done.
    destruct (match_here (sorted_by_len_desc terms) (c :: x) false) as [m|] eqn:Hm.
    + pose proof (match_here_longest _ _ _ _ _ Hs Hm Ht Hp) as Hlen.
      pose proof (match_here_fits _ _ _ _ Hm) as Hfit.
      pose proof (lower_eq_length _ _ Hx) as Hl.
      assert (length m = length (c :: x)) as Hlm.
      { apply (f_equal length) in Hfit. rewrite length_app in Hfit. lia. }
      assert (m = c :: x) as ->.
      { rewrite drop_ge, app_nil_r in Hfit by lia. done. }
      rewrite decide_False by done. rewrite fmap_cons. simpl concat.
      rewrite drop_ge by done. f_equal.
      unfold replace_match. simpl. by apply find_token_ci.
    + apply match_here_none in Hm. eapply Forall_forall in Hm; [|exact Ht].
      by destruct (Hm Hp).
  - apply compile_pattern_none in E. subst terms. by apply elem_of_nil in Ht.
Qed.




(** ** Masking twice *)

Lemma ci_prefix_cons a t c x :
  ci_prefix (a :: t) (c :: x) ↔ lower_char a = lower_char c ∧ ci_prefix t x.
Proof.
  unfold ci_prefix, lower. rewrite !fmap_cons. split.
  - intros H. split; [by apply prefix_cons_inv_1 in H | by apply prefix_cons_inv_2 in H].
  - intros [-> H]. by apply prefix_cons.
Qed.

Lemma ci_prefix_nil_r t : ci_prefix t [] → t = [].
Proof. intros H. apply prefix_nil_inv in H. by destruct t. Qed.

Lemma find_token_brackets tokens m :
  ∃ body, find_token tokens m = lbracket :: body ++ [rbracket].
Proof.
  induction tokens as [|[k tok] tokens IH]; simpl.
  - by exists (lit "MASKED_TERM").
  - destruct (str_contains (lower k) (lower m)); [by exists tok | done].
Qed.

Lemma scan_no_match alts y :
  (∀ s, s `suffix_of` y → match_here alts s false = None) →
  scan alts y 0 = Verbatim <$> y.
Proof.
  induction y as [|c y IH]; intros H; simpl.
  - by rewrite (H [] (suffix_nil [])).
  - rewrite (H (c :: y)) by done. rewrite IH; [done |].
    intros s Hs. apply H. by apply suffix_cons_r.
Qed.

Lemma render_verbatim repl y : concat (render repl <$> (Verbatim <$> y)) = y.
Proof. induction y as [|c y IH]; simpl; [done | by f_equal]. Qed.

Lemma find_token_replacement keys terms tokens m :
  find_token tokens m ∈ replacement_tokens (make_service keys terms tokens).
Proof.
  unfold replacement_tokens. simpl.
  induction tokens as [|[k tok] tokens IH]; simpl.
  - apply elem_of_cons. by left.
  - destruct (str_contains (lower k) (lower m)).
    + apply elem_of_cons. right. apply elem_of_cons. by left.
    + apply elem_of_cons in IH as [IH|IH]; apply elem_of_cons; [by left |].
      right. apply elem_of_cons. by right.
Qed.

Section Idempotence.

Variables (keys terms : list pystr) (tokens : list (pystr * pystr)).

Local Abbreviation self := (make_service keys terms tokens).
Local Abbreviation alts := (sorted_by_len_desc terms).
Local Abbreviation out := (re_sub alts (find_token tokens)).

Hypothesis terms_bracket_free : Forall bracket_free terms.
Hypothesis tokens_hold_no_term :
  Forall (λ tok, Forall (λ t, ¬ ci_substring t tok) terms)
         (replacement_tokens self).

Lemma term_not_in_token t m : t ∈ alts → ¬ ci_substring t (find_token tokens m).
Proof.
  intros Ht. rewrite sorted_by_len_desc_elem in Ht.
  pose proof (find_token_replacement keys terms tokens m) as Hm.
  pose proof (proj1 (Forall_forall _ _) tokens_hold_no_term _ Hm) as Hall.
  exact (proj1 (Forall_forall _ _) Hall _ Ht).
Qed.

Lemma term_not_empty t : t ∈ alts → t ≠ [].
Proof.
  intros Ht ->. apply (term_not_in_token [] [] Ht).
  exists [], (lower (find_token tokens [])). done.
Qed.

Lemma term_bracket_free t : t ∈ alts → bracket_free t.
Proof.
  intros Ht. rewrite sorted_by_len_desc_elem in Ht.
  exact (proj1 (Forall_forall _ _) terms_bracket_free _ Ht).
Qed.

Lemma match_here_term x adv m :
  match_here alts x adv = Some m →
  m ≠ [] ∧ ∃ t, t ∈ alts ∧ ci_prefix t x.
Proof.
  intros Hm.
  destruct (match_here_first _ _ _ _ Hm) as (pre & t & post & Halts & Ht & _).
  assert (t ∈ alts) as Hin.
  { rewrite Halts. apply elem_of_app. right. apply elem_of_cons. by left. }
  split.
  - intros ->. apply (term_not_empty t Hin). by apply (match_literal_nil _ _ _ Ht).
  - exists t. split; [done |]. by apply match_literal_spec in Ht as [_ Ht].
Qed.

Lemma out_nil : out [] = [].
Proof.
  unfold re_sub. rewrite scan_nil.
  destruct (match_here alts [] false) as [m|] eqn:Hm; [|done].
  apply match_here_term in Hm as [_ (t & Ht & Hp)].
  apply ci_prefix_nil_r in Hp. by apply term_not_empty in Ht.
Qed.

Lemma out_cons c x :
  out (c :: x) =
    match match_here alts (c :: x) false with
    | None => c :: out x
    | Some m => find_token tokens m ++ out (drop (length m) (c :: x))
    end.
Proof.
  unfold re_sub. rewrite scan_cons by apply sorted_by_len_desc_sorted.
  destruct (match_here alts (c :: x) false) as [m|] eqn:Hm; [|done].
  apply match_here_term in Hm as [Hne _].
  by rewrite decide_False by done.
Qed.

(** A bracket-free term that matches at the start of the output matches at
    the start of the input. *)
Lemma out_prefix x t : lbracket ∉ t → ci_prefix t (out x) → ci_prefix t x.
Proof.
  revert t. induction x as [|c x IH]; intros t Hbr.
  - by rewrite out_nil.
  - rewrite out_cons. destruct t as [|a t]; [intros _; apply prefix_nil |].
    destruct (match_here alts (c :: x) false) as [m|].
    + destruct (find_token_brackets tokens m) as [body ->]. simpl.
      intros Hp. apply ci_prefix_cons in Hp as [Ha _].
      exfalso. apply Hbr. apply elem_of_cons. left.
      symmetry. by apply lower_char_lbracket.
    + intros Hp. apply ci_prefix_cons in Hp as [Ha Hp].
      apply ci_prefix_cons. split; [done |]. apply IH; [|done].
      intros Hin. apply Hbr. apply elem_of_cons. by right.
Qed.

(** A term cannot start inside a token and run over its closing bracket,
    nor fit inside the token. *)
Lemma no_term_from_token t m u k rest :
  t ∈ alts → find_token tokens m = k ++ u → u ≠ [] →
  ¬ ci_prefix t (u ++ rest).
Proof.
  intros Ht Htok Hu Hp. unfold ci_prefix in Hp. rewrite lower_app in Hp.
  destruct (prefix_weak_total (lower t) (lower u) (lower u ++ lower rest)) as [H|H];
    [done | by apply prefix_app_r | |].
  - apply (term_not_in_token t m Ht). destruct H as [post H].
    exists (lower k), post. by rewrite Htok, lower_app, H.
  - destruct (find_token_brackets tokens m) as [body Hbody].
    assert (∃ u', u = u' ++ [rbracket]) as [u' ->].
    { rewrite Hbody in Htok.
      destruct u as [|z u' _] using rev_ind; [done |]; clear Hu.
      exists u'. rewrite app_assoc in Htok.
      change (lbracket :: body ++ [rbracket]) with ((lbracket :: body) ++ [rbracket]) in Htok.
      apply app_inj_2 in Htok as [_ [= <-]]; done. }
    destruct (term_bracket_free t Ht) as [_ Hr]. apply Hr.
    assert (rbracket ∈ lower t) as Hin.
    { eapply elem_of_prefix; [|exact H]. rewrite lower_app.
      apply elem_of_app. right. apply elem_of_cons. by left. }
    apply list_elem_of_fmap in Hin as (a & Ha & Hin).
    symmetry in Ha. apply lower_char_rbracket in Ha. by subst a.
Qed.

(** No term matches anywhere in a masked text. *)
Lemma out_no_match x s t : s `suffix_of` out x → t ∈ alts → ¬ ci_prefix t s.
Proof.
  revert s. induction x as [x IH] using text_ind. intros s Hs Ht Hp.
  destruct s as [|b s].
  { apply ci_prefix_nil_r in Hp. by apply term_not_empty in Ht. }
  destruct x as [|c x].
  { rewrite out_nil in Hs. by apply suffix_nil_inv in Hs. }
  rewrite out_cons in Hs.
  destruct (match_here alts (c :: x) false) as [m|] eqn:Hm.
  - destruct Hs as [k Hs].
    apply app_eq_inv in Hs as [(u & Htok & Hu)|(u & _ & Hrest)].
    + destruct (decide (u = [])) as [->|Hne].
      * simpl in Hu. apply (IH (drop (length m) (c :: x))) with (b :: s); try done.
        -- rewrite length_drop. apply match_here_term in Hm as [Hne _].
           destruct m; simpl; [done | lia].
        -- by rewrite Hu.
      * rewrite Hu in Hp. by eapply no_term_from_token.
    + apply (IH (drop (length m) (c :: x))) with (b :: s); try done.
      * rewrite length_drop. apply match_here_term in Hm as [Hne _].
        destruct m; simpl; [done | lia].
      * by exists u.
  - apply suffix_cons_inv in Hs as [Hs|Hs].
    + rewrite Hs in Hp.
      destruct (term_bracket_free t Ht) as [Hl _].
      assert (out (c :: x) = c :: out x) as Hout by (by rewrite out_cons, Hm).
      rewrite <- Hout in Hp.
      apply out_prefix in Hp; [|done].
      apply match_here_none in Hm. eapply Forall_forall in Hm; [|exact Ht].
      by destruct (Hm Hp).
    + apply (IH x) with (b :: s); simpl; try done; lia.
Qed.

End Idempotence.

#[global] Instance bracket_free_dec t : Decision (bracket_free t).
Proof. unfold bracket_free. apply _. Defined.




(** ** More on the compiled pattern *)

Lemma insert_by_len_perm t l : insert_by_len t l ≡ₚ t :: l.
Proof.
  induction l as [|u l IH]; simpl; [done |].
  destruct (length u <=? length t)%nat; [done |].
  rewrite IH. apply Permutation_swap.
Qed.

Lemma insert_by_len_filter n t l :
  filter (λ u, length u = n) (insert_by_len t l) =
  filter (λ u, length u = n) (t :: l).
Proof.
  induction l as [|u l IH]; simpl; [done |].
  destruct (length u <=? length t)%nat eqn:E; [done |].
  apply Nat.leb_gt in E.
  rewrite (filter_cons _ u), IH, !filter_cons.
  destruct (decide (length u = n)), (decide (length t = n)); try done; lia.
Qed.

(** X1. The pattern [__init__] compiles: there is none exactly when there
    are no terms; otherwise its alternatives are the configured terms, each
    as often as it is configured, in non-increasing order of length, and
    terms of the same length keep the order of the configuration. *)
Theorem compiled_pattern_sorted_stable keys terms tokens :
  (pattern (make_service keys terms tokens) = None ↔ terms = []) ∧
  ∀ alts, pattern (make_service keys terms tokens) = Some alts →
    alts ≡ₚ terms ∧
    StronglySorted longer_first alts ∧
    ∀ n, filter (λ t, length t = n) alts = filter (λ t, length t = n) terms.
Proof.
  cbn [pattern make_service]. split; [apply compile_pattern_none |].
  intros alts Halts. apply compile_pattern_some in Halts as ->.
  split; [|split].
  - induction terms as [|t ts IH]; simpl; [done |].
    by rewrite insert_by_len_perm, IH.
  - apply sorted_by_len_desc_sorted.
  - intros n. induction terms as [|t ts IH]; [done |].
    change (sorted_by_len_desc (t :: ts))
      with (insert_by_len t (sorted_by_len_desc ts)).
    rewrite insert_by_len_filter, !filter_cons.
    destruct (decide (length t = n)); [f_equal |]; exact IH.
Qed.

(** ** More on [mask_text] *)

Lemma scan_partition alts x :
  StronglySorted longer_first alts →
  concat (piece_text <$> scan alts x 0) = x.
Proof.
  intros Hs. induction x as [x IH] using text_ind.
  destruct x as [|c x].
  - rewrite scan_nil. destruct (match_here alts [] false) as [m|] eqn:Hm; [|done].
    apply match_here_fits in Hm. simpl. rewrite app_nil_r.
    symmetry in Hm. by apply app_eq_nil in Hm as [-> _].
  - rewrite scan_cons by done.
    destruct (match_here alts (c :: x) false) as [m|] eqn:Hm.
    + rewrite fmap_cons. simpl concat.
      destruct (decide (m = [])) as [->|Hne].
      * simpl. f_equal. apply IH. simpl. lia.
      * rewrite IH.
        -- symmetry. by eapply match_here_fits.
        -- rewrite length_drop. destruct m; simpl; [done | lia].
    + rewrite fmap_cons. simpl. f_equal. apply IH. simpl. lia.
Qed.

(** X2. [mask_text] only replaces spans: the pieces it renders, read as the
    text they stand for, are the input text, in order and without gaps, and
    the output is the same sequence with each matched span replaced by its
    token and every other character copied. *)
Theorem mask_text_partitions_input keys terms tokens text :
  let self := make_service keys terms tokens in
  concat (piece_text <$> mask_pieces self text) = text ∧
  mask_text self text =
    concat ((λ p, match p with
                  | Verbatim c => [c]
                  | Matched m => replace_match self m
                  end) <$> mask_pieces self text).
Proof.
  intros self. split; [|apply mask_text_pieces].
  unfold mask_pieces. simpl.
  destruct (compile_pattern terms) as [alts|] eqn:E.
  - apply compile_pattern_some in E as ->. destruct text as [|c x]; [done |].
    apply scan_partition, sorted_by_len_desc_sorted.
  - induction text as [|c x IH]; [done |]. rewrite !fmap_cons. simpl.
    f_equal. exact IH.
Qed.

Lemma ci_substring_suffix t y :
  ci_substring t y ↔ ∃ s, s `suffix_of` y ∧ ci_prefix t s.
Proof.
  split.
  - intros (pre & post & H). exists (drop (length pre) y). split.
    + apply suffix_drop.
    + exists post. unfold lower in *. rewrite fmap_drop, H.
      by rewrite drop_app_length.
  - intros (s & [k ->] & [post Hp]). exists (lower k), post.
    by rewrite lower_app, Hp.
Qed.



Lemma mask_text_no_term_left keys terms tokens text t :
  Forall bracket_free terms →
  Forall (λ tok, Forall (λ t, ¬ ci_substring t tok) terms)
         (replacement_tokens (make_service keys terms tokens)) →
  t ∈ terms →
  ¬ ci_substring t (mask_text (make_service keys terms tokens) text).
Proof.
  intros Hbr Htok Ht Hsub.
  assert (mask_text (make_service keys terms tokens) text =
          re_sub (sorted_by_len_desc terms) (find_token tokens) text) as Hout.
  { unfold mask_text. simpl.
    destruct (compile_pattern terms) as [alts|] eqn:E.
    - apply compile_pattern_some in E as ->. destruct text; [|done].
      symmetry. by apply (out_nil keys terms tokens).
    - apply compile_pattern_none in E. subst terms. by apply elem_of_nil in Ht. }
  rewrite Hout in Hsub. apply ci_substring_suffix in Hsub as (s & Hs & Hp).
  apply (out_no_match keys terms tokens Hbr Htok text s t); try done.
  by apply sorted_by_len_desc_elem.
Qed.




(** ** The order and the letter case of the configured terms *)

Lemma ci_prefix_lower_eq t u x : lower u = lower t → ci_prefix t x → ci_prefix u x.
Proof. unfold ci_prefix. by intros ->. Qed.

Lemma match_here_some alts x adv t :
  t ∈ alts → ci_prefix t x → (adv = true → t ≠ []) →
  ∃ m, match_here alts x adv = Some m.
Proof.
  intros Ht Hp Hne. destruct (match_here alts x adv) as [m|] eqn:E; [by exists m |].
  apply match_here_none in E.
  destruct (proj1 (Forall_forall _ _) E t Ht Hp) as [Hadv ->]. by destruct Hne.
Qed.

Lemma match_here_take alts x adv m :
  match_here alts x adv = Some m → m = take (length m) x.
Proof.
  intros Hm. apply match_here_fits in Hm. rewrite Hm.
  by rewrite take_app_length.
Qed.

(** What a sorted alternation reports depends on its terms up to case only. *)
Lemma match_here_le alts1 alts2 x adv m1 m2 :
  StronglySorted longer_first alts2 →
  (∀ t, t ∈ alts1 → ∃ u, u ∈ alts2 ∧ lower u = lower t) →
  match_here alts1 x adv = Some m1 → match_here alts2 x adv = Some m2 →
  length m1 ≤ length m2.
Proof.
  intros Hs H12 H1 H2.
  destruct (match_here_first _ _ _ _ H1) as (pre & t & post & Halts & Ht & _).
  rewrite (match_literal_length _ _ _ Ht).
  apply match_literal_spec in Ht as [_ Hp].
  destruct (H12 t) as (u & Hu & Hlow).
  { rewrite Halts. apply elem_of_app. right. apply elem_of_cons. by left. }
  rewrite <- (lower_eq_length _ _ Hlow).
  eapply match_here_longest; try done. by apply (ci_prefix_lower_eq t).
Qed.

Lemma match_here_is_some alts1 alts2 x adv m1 :
  (∀ t, t ∈ alts1 → ∃ u, u ∈ alts2 ∧ lower u = lower t) →
  match_here alts1 x adv = Some m1 → ∃ m2, match_here alts2 x adv = Some m2.
Proof.
  intros H12 H1.
  destruct (match_here_first _ _ _ _ H1) as (pre & t & post & Halts & Ht & Hne & _).
  apply match_literal_spec in Ht as [_ Hp].
  destruct (H12 t) as (u & Hu & Hlow).
  { rewrite Halts. apply elem_of_app. right. apply elem_of_cons. by left. }
  apply (match_here_some alts2 x adv u); [done | by apply (ci_prefix_lower_eq t) |].
  intros Hadv ->. apply (Hne Hadv). symmetry in Hlow. by destruct t.
Qed.

Lemma match_here_same alts1 alts2 x adv :
  StronglySorted longer_first alts1 → StronglySorted longer_first alts2 →
  same_terms_up_to_case alts1 alts2 →
  match_here alts1 x adv = match_here alts2 x adv.
Proof.
  intros Hs1 Hs2 [H12 H21].
  destruct (match_here alts1 x adv) as [m1|] eqn:E1.
  - destruct (match_here_is_some _ _ _ _ _ H12 E1) as [m2 E2]. rewrite E2. f_equal.
    pose proof (match_here_le _ _ _ _ _ _ Hs2 H12 E1 E2).
    pose proof (match_here_le _ _ _ _ _ _ Hs1 H21 E2 E1).
    rewrite (match_here_take _ _ _ _ E1), (match_here_take _ _ _ _ E2).
    f_equal. lia.
  - destruct (match_here alts2 x adv) as [m2|] eqn:E2; [|done].
    destruct (match_here_is_some _ _ _ _ _ H21 E2) as [m1 E1']. congruence.
Qed.

Lemma scan_same alts1 alts2 x k :
  (∀ y adv, match_here alts1 y adv = match_here alts2 y adv) →
  scan alts1 x k = scan alts2 x k.
Proof.
  intros H. revert k. induction x as [|c x IH]; intros k; simpl.
  - by rewrite H.
  - destruct k; [|done]. rewrite !H.
    destruct (match_here alts2 (c :: x) false) as [[|a m]|]; rewrite ?IH; try done.
    destruct (match_here alts2 (c :: x) true); by rewrite ?IH.
Qed.



(** ** More on [mask_structure] *)

Lemma mask_entry_keys self items : (mask_entry self <$> items).*1 = items.*1.
Proof. rewrite <- list_fmap_compose. by apply list_fmap_ext. Qed.

Lemma mask_structure_wf self v :
  wf_value v = true → wf_value (mask_structure self v) = true.
Proof.
  induction v as [items IH|elems IH|s|x] using value_rect'; intros Hwf; try done.
  - apply wf_value_dict in Hwf as [Hnd Hall].
    rewrite mask_structure_entries by done. apply wf_value_dict.
    rewrite mask_entry_keys. split; [done |].
    apply Forall_fmap. apply Forall_forall. intros kv Hkv.
    unfold mask_entry. simpl. destruct (decide (kv.1 ∈ sensitive_keys self)); [done |].
    apply (proj1 (Forall_forall _ _) IH kv Hkv).
    apply (proj1 (Forall_forall _ _) Hall kv Hkv).
  - apply wf_value_list in Hwf. simpl mask_structure. apply wf_value_list.
    apply Forall_fmap. apply Forall_forall. intros v Hv.
    apply (proj1 (Forall_forall _ _) IH v Hv).
    apply (proj1 (Forall_forall _ _) Hwf v Hv).
Qed.

Lemma mask_text_twice keys terms tokens x :
  Forall bracket_free terms →
  Forall (λ tok, Forall (λ t, ¬ ci_substring t tok) terms)
         (replacement_tokens (make_service keys terms tokens)) →
  mask_text (make_service keys terms tokens)
            (mask_text (make_service keys terms tokens) x)
  = mask_text (make_service keys terms tokens) x.
Proof.
  intros Hbr Htok. unfold mask_text. simpl.
  destruct (compile_pattern terms) as [alts|] eqn:E; [|done].
  apply compile_pattern_some in E as ->.
  destruct x as [|c x]; [done |].
  change (replace_match (make_service keys terms tokens)) with (find_token tokens).
  destruct (re_sub (sorted_by_len_desc terms) (find_token tokens) (c :: x))
    as [|b y] eqn:Hy; [done |].
  unfold re_sub at 1. rewrite scan_no_match; [apply render_verbatim |].
  intros s Hs. apply match_here_none. apply Forall_forall. intros t Ht Hp.
  exfalso. rewrite <- Hy in Hs.
  by apply (out_no_match keys terms tokens Hbr Htok (c :: x) s t).
Qed.

Lemma mask_entry_idem self kv :
  mask_structure self (mask_structure self kv.2) = mask_structure self kv.2 →
  mask_entry self (mask_entry self kv) = mask_entry self kv.
Proof.
  destruct kv as [k v]. unfold mask_entry. simpl. intros Hv.
  destruct (decide (k ∈ sensitive_keys self)); [done | by rewrite Hv].
Qed.



Lemma elem_of_concat {A} (x : A) (ls : list (list A)) :
  x ∈ concat ls ↔ ∃ l, x ∈ l ∧ l ∈ ls.
Proof.
  induction ls as [|l0 ls IH]; simpl.
  - split; [intros H; by apply elem_of_nil in H |].
    intros (l & _ & H). by apply elem_of_nil in H.
  - rewrite elem_of_app, IH. split.
    + intros [H|(l & H & Hl)].
      * exists l0. split; [done |]. apply elem_of_cons. by left.
      * exists l. split; [done |]. apply elem_of_cons. by right.
    + intros (l & H & Hl). apply elem_of_cons in Hl as [->|Hl]; [by left |].
      right. by exists l.
Qed.

Lemma string_values_dict items :
  string_values (VDict items) = concat ((λ kv, string_values kv.2) <$> items).
Proof.
  simpl. induction items as [|[k v] items IH]; [done |].
  rewrite fmap_cons. simpl. by rewrite IH.
Qed.

Lemma string_values_list elems :
  string_values (VList elems) = concat (string_values <$> elems).
Proof.
  simpl. induction elems as [|v elems IH]; [done |].
  rewrite fmap_cons. simpl. by rewrite IH.
Qed.



(** ** More on the handlers *)

Lemma json_dumps_list elems :
  json_dumps (VList elems) =
    match all_results (json_dumps <$> elems) with
    | Ok parts => Ok (lit "[" ++ join (lit ", ") parts ++ lit "]")
    | Raise e => Raise e
    end.
Proof.
  simpl.
  match goal with
  | |- match ?f elems with _ => _ end = _ =>
      assert (f elems = all_results (json_dumps <$> elems)) as ->; [|done]
  end.
  induction elems as [|v elems IH]; [done |].
  rewrite fmap_cons. simpl. by rewrite IH.
Qed.

Lemma json_dumps_dict items :
  json_dumps (VDict items) =
    match all_results (json_member <$> items) with
    | Ok parts => Ok (lit "{" ++ join (lit ", ") parts ++ lit "}")
    | Raise e => Raise e
    end.
Proof.
  simpl.
  match goal with
  | |- match ?f items with _ => _ end = _ =>
      assert (f items = all_results (json_member <$> items)) as ->; [|done]
  end.
  induction items as [|[k v] items IH]; [done |].
  rewrite fmap_cons. unfold json_member at 1. simpl. rewrite IH.
  by destruct (json_dumps v).
Qed.

Lemma serialisable_list elems :
  serialisable (VList elems) = forallb serialisable elems.
Proof. simpl. induction elems as [|v elems IH]; simpl; [done | by rewrite IH]. Qed.

Lemma serialisable_dict items :
  serialisable (VDict items) = forallb (λ kv, serialisable kv.2) items.
Proof. simpl. induction items as [|[k v] items IH]; simpl; [done | by rewrite IH]. Qed.

Lemma all_results_cases {A B} (f : A → result B) (ok : A → bool) l :
  Forall (λ a, if ok a then ∃ b, f a = Ok b else f a = Raise TypeError) l →
  if forallb ok l then ∃ bs, all_results (f <$> l) = Ok bs
  else all_results (f <$> l) = Raise TypeError.
Proof.
  induction 1 as [|a l Ha _ IH]; [by exists [] |].
  rewrite fmap_cons. simpl. destruct (ok a); simpl.
  - destruct Ha as [b ->]. destruct (forallb ok l).
    + destruct IH as [bs ->]. by eexists.
    + by rewrite IH.
  - by rewrite Ha.
Qed.

Lemma json_dumps_cases v :
  if serialisable v then ∃ s, json_dumps v = Ok s
  else json_dumps v = Raise TypeError.
Proof.
  induction v as [items IH|elems IH|s|x] using value_rect'.
  - rewrite json_dumps_dict, serialisable_dict.
    assert (Forall (λ kv, if serialisable kv.2 then ∃ b, json_member kv = Ok b
                          else json_member kv = Raise TypeError) items) as HF.
    { eapply Forall_impl; [exact IH |]. intros kv Hkv. unfold json_member.
      cbv beta in Hkv. destruct (serialisable kv.2); [destruct Hkv as [p ->]; by eexists | by rewrite Hkv]. }
    pose proof (all_results_cases json_member (λ kv, serialisable kv.2) items HF) as H.
    destruct (forallb (λ kv, serialisable kv.2) items).
    + destruct H as [bs ->]. by eexists.
    + by rewrite H.
  - rewrite json_dumps_list, serialisable_list.
    pose proof (all_results_cases json_dumps serialisable elems IH) as H.
    destruct (forallb serialisable elems).
    + destruct H as [bs ->]. by eexists.
    + by rewrite H.
  - by eexists.
  - destruct x as [| [] | |]; simpl; try by eexists.
Qed.

Lemma logged_line_length (prefix payload : pystr) :
  length (prefix ++ take 2000 payload ++ lit "...") ≤ length prefix + 2003.
Proof.
  rewrite !length_app, length_take. change (length (lit "...")) with 3. lia.
Qed.

(** The two outcomes of [on_chain_start] in terms of the masked inputs, with
    recursion unbounded as everywhere in the model. *)
Lemma on_chain_start_cases masker inputs l :
  if serialisable (mask_structure masker (VDict inputs))
  then ∃ line, on_chain_start masker inputs l = (Ok tt, l ++ [line]) ∧
               length line ≤ 2025
  else on_chain_start masker inputs l = (Raise TypeError, l).
Proof.
  unfold on_chain_start, mbind, handler_bind, lift.
  pose proof (json_dumps_cases (mask_structure masker (VDict inputs))) as H.
  destruct (serialisable (mask_structure masker (VDict inputs))).
  - destruct H as [s ->]. eexists. split; [done |].
    apply (logged_line_length (lit "CHAIN START - Inputs: ")).
  - by rewrite H.
Qed.

Lemma flat_mask_entry_serialisable self kv :
  flat kv.2 = true →
  serialisable (mask_entry self kv).2 = negb (exposes_object self kv).
Proof.
  destruct kv as [k v]. unfold mask_entry, exposes_object. simpl. intros Hflat.
  destruct (decide (k ∈ sensitive_keys self)) as [Hk|Hk].
  - rewrite bool_decide_eq_false_2 by (intros Hn; by apply Hn). done.
  - rewrite bool_decide_eq_true_2 by done. simpl. rewrite negb_involutive.
    by destruct v as [items|elems|s|[]].
Qed.



(** X11. [on_llm_start] on a list of prompt strings never raises: it leaves
    the earlier log lines as they are and appends exactly one line, of at
    most 2024 characters. *)
Theorem on_llm_start_logs_one_line masker prompts l :
  ∃ line, on_llm_start masker prompts l = (Ok tt, l ++ [line]) ∧
          length line ≤ 2024.
Proof.
  unfold on_llm_start, mbind, handler_bind, lift.
  assert (serialisable (VList (VStr <$> (mask_text masker <$> prompts))) = true) as Hser.
  { rewrite serialisable_list. induction prompts as [|p ps IH]; [done |].
    rewrite !fmap_cons. exact IH. }
  pose proof (json_dumps_cases (VList (VStr <$> (mask_text masker <$> prompts)))) as H.
  rewrite Hser in H. destruct H as [s ->]. eexists. split; [done |].
  apply (logged_line_length (lit "LLM START - Prompts: ")).
Qed.

(** X12. [on_llm_end] never raises, whatever the response: it leaves the
    earlier log lines as they are and appends exactly one line, of at most
    2023 characters. *)
Theorem on_llm_end_logs_one_line masker r l :
  ∃ line, on_llm_end masker r l = (Ok tt, l ++ [line]) ∧ length line ≤ 2023.
Proof.
  unfold on_llm_end, try_except, mbind, handler_bind, lift.
  destruct (response_text r) as [t|e]; simpl.
  - eexists. split; [done |].
    apply (logged_line_length (lit "LLM END - Response: ")).
  - eexists. split; [reflexivity |]. apply Nat.leb_le. by vm_compute.
Qed.

Lemma ci_substring_take t n y : ci_substring t (take n y) → ci_substring t y.
Proof.
  intros (pre & post & H). exists pre, (post ++ drop n (lower y)).
  assert (lower y = lower (take n y) ++ drop n (lower y)) as Hy.
  { unfold lower. rewrite fmap_take. symmetry. apply take_drop. }
  etrans; [exact Hy |]. rewrite H. by rewrite <- !app_assoc.
Qed.



(** ** The data classes *)

Section DataClassFacts.

Context {V Obs : Type} (str_value : V → pystr) (str_obs : Obs → pystr).

Lemma parameter_line_cases name (spec : list (pystr * V)) :
  match dict_get (lit "value") spec with
  | Some _ => ∃ line, parameter_line str_value name spec = Returned line
  | None => parameter_line str_value name spec = KeyError (lit "value")
  end.
Proof.
  unfold parameter_line. destruct (dict_get (lit "value") spec); [by eexists | done].
Qed.

Lemma parameter_lines_returned (params : list (pystr * list (pystr * V))) lines :
  parameter_lines str_value params = Returned lines →
  length lines = length params ∧
  Forall (λ p, is_Some (dict_get (lit "value") p.2)) params.
Proof.
  revert lines. induction params as [|[name spec] params IH]; simpl; intros lines.
  - intros [= <-]. split; [done | constructor].
  - pose proof (parameter_line_cases name spec) as Hline.
    destruct (dict_get (lit "value") spec) as [v|] eqn:Hv.
    + destruct Hline as [line ->].
      destruct (parameter_lines str_value params) as [ls|k]; [|done].
      intros [= <-]. destruct (IH ls eq_refl) as [Hlen Hall].
      split; [simpl; by rewrite Hlen |]. constructor; [|done]. by exists v.
    + by rewrite Hline.
Qed.

Lemma parameter_lines_key_error (params : list (pystr * list (pystr * V))) k :
  parameter_lines str_value params = KeyError k →
  k = lit "value" ∧
  ∃ name spec, (name, spec) ∈ params ∧ dict_get (lit "value") spec = None.
Proof.
  induction params as [|[name spec] params IH]; simpl; [done |].
  pose proof (parameter_line_cases name spec) as Hline.
  destruct (dict_get (lit "value") spec) as [v|] eqn:Hv.
  - destruct Hline as [line ->].
    destruct (parameter_lines str_value params) as [ls|k']; [done |].
    intros [= <-]. destruct (IH eq_refl) as (-> & n & sp & Hin & Hnone).
    split; [done |]. exists n, sp. split; [|done]. apply elem_of_cons. by right.
  - rewrite Hline. intros [= <-]. split; [done |].
    exists name, spec. split; [|done]. apply elem_of_cons. by left.
Qed.

(** X14. [DesignSpace.format] raises exactly when the specification of some
    parameter has no "value" entry, and the error is then [KeyError('value')];
    missing "unit", "min" or "max" entries never make it raise.  When it
    returns, the text is the two header lines followed by one line for each
    parameter. *)
Theorem design_space_format_outcome (self : DesignSpace) :
  match DesignSpace_format str_value self with
  | KeyError k =>
      k = lit "value" ∧
      ∃ name spec, (name, spec) ∈ parameters self ∧
                   dict_get (lit "value") spec = None
  | Returned out =>
      Forall (λ p, is_Some (dict_get (lit "value") p.2)) (parameters self) ∧
      ∃ lines, length lines = length (parameters self) ∧
               out = join newline
                       ((lit "Target Property: " ++ target_property self) ::
                        lit "Parameters:" :: lines)
  end.
Proof.
  unfold DesignSpace_format.
  destruct (parameter_lines str_value (parameters self)) as [lines|k] eqn:E.
  - destruct (parameter_lines_returned _ _ E) as [Hlen Hall].
    split; [done |]. by exists lines.
  - by apply parameter_lines_key_error.
Qed.

Lemma iteration_lines_length i (observations : list Obs) :
  length (iteration_lines str_obs i observations) = length observations.
Proof.
  revert i. induction observations as [|obs observations IH]; intros i; simpl;
    [done | by rewrite IH].
Qed.

Lemma iteration_lines_lookup i (observations : list Obs) k obs :
  observations !! k = Some obs →
  iteration_lines str_obs i observations !! k =
    Some (lit "Iteration " ++ decimal (i + k) ++ lit ": " ++ str_obs obs).
Proof.
  revert i k. induction observations as [|o observations IH]; intros i [|k] Hk;
    simpl in *; try done.
  - injection Hk as ->. by rewrite Nat.add_0_r.
  - rewrite (IH (S i) k Hk). by rewrite Nat.add_succ_r.
Qed.

(** X15. [PriorData.format] returns "(No prior observations)" when there are
    no observations; otherwise it returns one line for each observation, in
    order, joined by newlines, and the line of the observation at index [k]
    (from 0) is "Iteration " followed by [k + 1], ": " and the observation. *)
Theorem prior_data_format_lines (observations : list Obs) :
  match observations with
  | [] => PriorData_format str_obs observations = lit "(No prior observations)"
  | _ =>
      ∃ lines,
        PriorData_format str_obs observations = join newline lines ∧
        length lines = length observations ∧
        ∀ k obs, observations !! k = Some obs →
          lines !! k =
            Some (lit "Iteration " ++ decimal (S k) ++ lit ": " ++ str_obs obs)
  end.
Proof.
  destruct observations as [|o observations]; [done |].
  exists (iteration_lines str_obs 1 (o :: observations)).
  split; [done |]. split; [apply iteration_lines_length |].
  intros k obs Hk. by rewrite (iteration_lines_lookup 1 _ k obs Hk).
Qed.

End DataClassFacts.

Example design_space_format_sample :
  DesignSpace_format (λ n : nat, decimal n)
    {| target_property := lit "yield";
       parameters := [(lit "temp", [(lit "value", 478); (lit "max", 600)])] |}
  = Returned (lit "Target Property: yield" ++ newline ++ lit "Parameters:" ++
              newline ++ lit "  - temp: 478  (range: ? - 600)").
Proof. by vm_compute. Qed.

Example design_space_format_missing_value :
  DesignSpace_format (λ n : nat, decimal n)
    {| target_property := lit "yield";
       parameters := [(lit "temp", [(lit "value", 478)]);
                      (lit "time", [(lit "unit", 3)])] |}
  = KeyError (lit "value").
Proof. by vm_compute. Qed.

Example prior_data_format_sample :
  PriorData_format (λ n : nat, decimal n) [7; 8]
  = lit "Iteration 1: 7" ++ newline ++ lit "Iteration 2: 8".
Proof. by vm_compute. Qed.

(** X16. What stands under a sensitive key cannot make [on_chain_start]
    fail: when every key of the inputs is sensitive, the handler returns
    normally and logs one line, whatever the values are, objects that
    [json.dumps] refuses included. *)
Theorem on_chain_start_all_keys_sensitive masker inputs l :
  NoDup inputs.*1 →
  Forall (λ kv, kv.1 ∈ sensitive_keys masker) inputs →
  ∃ line, on_chain_start masker inputs l = (Ok tt, l ++ [line]).
Proof.
  intros Hnd Hall.
  pose proof (on_chain_start_cases masker inputs l) as H.
  assert (serialisable (mask_structure masker (VDict inputs)) = true) as Hser.
  { rewrite mask_structure_entries, serialisable_dict by done. clear Hnd H.
    induction Hall as [|kv inputs Hkv _ IH]; [done |].
    rewrite fmap_cons. simpl. rewrite IH, andb_true_r.
    by rewrite decide_True by done. }
  rewrite Hser in H. destruct H as (line & H & _). by exists line.
Qed.

Lemma on_chain_start_all_keys_sensitive_witness :
  ∃ line,
    on_chain_start (make_service [lit "design_space"] [] [])
      [(lit "design_space", VScalar (PyObject 0))] []
    = (Ok tt, [] ++ [line]).
Proof.
  apply (on_chain_start_all_keys_sensitive
           (make_service [lit "design_space"] [] [])
           [(lit "design_space", VScalar (PyObject 0))] []).
  - apply (bool_decide_unpack _). by vm_compute.
  - apply (bool_decide_unpack _). by vm_compute.
Defined.
